(** * go-reverse-proxy: a shallow embedding of the dispatcher, its header
    helpers, the route builder and the health monitor.

    Layout of the development:
    - Part I embeds the Go sources:
        [route.go]                (type Route, NewRoute, the setters, methodStringToSlice),
        [httputil/header.go]      (the three header merges),
        [health/healthcheck.go]   (the health monitor and its background loop),
        the package file of [reverseproxy] (ReverseProxyMux, ServeHTTP, HandlePath, ...).
    - Part II states and proves the properties.

    Conventions.
    - A Go [string] is a [string] of bytes; [http.Header] is a finite map from
      keys to value lists ([gmap string (list string)]); a nil map and an
      empty map range the same way and are both [∅].
    - A [range] over a Go map visits the entries in an unspecified order: a
      visit order is any permutation of the entries ([ranges]).
    - [int32] is a [Z] with its wrap-around written out ([wrap32]).
    - A Go call either returns or panics ([Result]).
    - Behaviour of imported packages (net/textproto, httprouter, rewrite,
      net/http/httputil, the transport, the network) is not part of the
      repository: it is taken as a parameter, the class [Externals]. *)

From Stdlib Require Import ZArith Ascii String.
From stdpp Require Import gmap strings list fin_maps.

Open Scope string_scope.
Open Scope Z_scope.

(* ===================================================================== *)
(** * Part I. The embedding                                               *)
(* ===================================================================== *)

(** ** Go basics *)

(** A call returns a value or panics with a value (printed with [%v]). *)
Inductive Result (A : Type) : Type :=
  | Returned (a : A)
  | Panicked (val : string).
Arguments Returned {A} a.
Arguments Panicked {A} val.

(** The [error] interface: only the message is observed. *)
Definition error := string.

(** [int32] arithmetic: two's complement wrap-around. *)
Definition wrap32 (z : Z) : Z := (z + 2 ^ 31) mod 2 ^ 32 - 2 ^ 31.
Definition max_int32 : Z := 2 ^ 31 - 1.

(** [atomic.AddInt32(&x, delta)]: the new value of [x]. *)
Definition AddInt32 (x delta : Z) : Z := wrap32 (x + delta).

(** ** package strings *)

Module strings.

(** [strings.Count(s, sep)] for a one-byte separator. *)
Fixpoint Count (s : string) (sep : ascii) : nat :=
  match s with
  | EmptyString => O
  | String c s' => if Ascii.eqb c sep then S (Count s' sep) else Count s' sep
  end.

(** [strings.Index(s, sep)] for a one-byte separator, returning the two
    slices [s[:m]] and [s[m+1:]] around the first occurrence, [None] when
    [Index] is negative. *)
Fixpoint cutAt (s : string) (sep : ascii) : option (string * string) :=
  match s with
  | EmptyString => None
  | String c s' =>
      if Ascii.eqb c sep then Some (EmptyString, s')
      else match cutAt s' sep with
           | Some (pre, post) => Some (String c pre, post)
           | None => None
           end
  end.

(** The loop of [genSplit]: at most [n] cuts, the remainder is the last
    element. *)
Fixpoint genSplit (n : nat) (s : string) (sep : ascii) : list string :=
  match n with
  | O => [s]
  | S n' =>
      match cutAt s sep with
      | None => [s]
      | Some (pre, post) => pre :: genSplit n' post sep
      end
  end.

(** [strings.Split(s, sep)] with [len(sep) = 1]: [n = Count(s, sep) + 1]
    slots, hence [Count(s, sep)] cuts. *)
Definition Split (s : string) (sep : ascii) : list string :=
  genSplit (Count s sep) s sep.

(** [strings.Join(elems, sep)] for a one-byte separator (used to write
    method specs such as ["A|B|C"]). *)
Fixpoint Join (elems : list string) (sep : ascii) : string :=
  match elems with
  | [] => EmptyString
  | [e] => e
  | e :: rest => e +:+ String sep (Join rest sep)
  end.

(** The byte [sep] does not occur in [s]. *)
Definition free_of (sep : ascii) (s : string) : Prop := Count s sep = O.

End strings.

(** ** net/http data *)

Abbreviation Header := (gmap string (list string)).

Record URL : Type := mkURL {
  url_Scheme : string;
  url_Host : string;
  url_Path : string
}.

Record Request : Type := mkRequest {
  req_Method : string;
  req_URL : URL;
  req_Host : string;
  req_Header : Header
}.

Record Response : Type := mkResponse {
  resp_StatusCode : Z;
  resp_Header : Header;
  resp_Request : Request
}.

(** What a handler has done to its [http.ResponseWriter]. *)
Record ResponseWriter : Type := mkResponseWriter {
  w_Header : Header;
  w_Status : option Z;
  w_Body : list string
}.

(** A visit order of [range header]. *)
Definition ranges (header : Header) (visit : list (string * list string)) : Prop :=
  visit ≡ₚ map_to_list header.

(** ** route.go *)

(** [type ResponseModifier] is a func from a pointer to [http.Response] to
    [error]: the modifier works
    on the response in place and returns an error or nil; like any call it
    may panic. *)
Definition ResponseModifier : Type := Response → Result (Response * option error).

(** [type Route struct]; a nil [ModifyResponse] is [None]. *)
Record Route : Type := mkRoute {
  Method : list string;
  Path : string;
  RewritePath : string;
  RequestHeader : Header;
  ModifyResponse : option ResponseModifier
}.

Definition methodStringToSlice (methods : string) : list string :=
  if String.eqb methods "*" then
    ["GET"; "HEAD"; "OPTIONS"; "POST"; "PUT"; "PATCH"; "DELETE"]
  else strings.Split methods "|"%char.

Definition NewRoute (methods path : string) : Route :=
  {| Method := methodStringToSlice methods;
     Path := path;
     RewritePath := "";
     RequestHeader := ∅;
     ModifyResponse := None |}.

(** The setters as functions of the receiver's value: what a call returns
    (see [call_value_receiver] below for the call itself). *)
Definition SetRewritePath (r : Route) (path : string) : Route :=
  {| Method := Method r; Path := Path r; RewritePath := path;
     RequestHeader := RequestHeader r; ModifyResponse := ModifyResponse r |}.

Definition SetRequestHeader (r : Route) (header : Header) : Route :=
  {| Method := Method r; Path := Path r; RewritePath := RewritePath r;
     RequestHeader := header; ModifyResponse := ModifyResponse r |}.

Definition SetModifyResponse (r : Route) (modifier : option ResponseModifier) : Route :=
  {| Method := Method r; Path := Path r; RewritePath := RewritePath r;
     RequestHeader := RequestHeader r; ModifyResponse := modifier |}.

(** Variables of type [Route] live at the addresses of a store. *)
Abbreviation Store := (gmap nat Route).

(** The statement [r.f = v] on the variable at address [a]. *)
Definition assign (upd : Route → Route) (a : nat) (st : Store) : Store :=
  alter upd a st.

(** The bodies of the setters up to their [return r], on the callee's
    variable [r] at address [a]. *)
Definition SetRewritePath_body (a : nat) (path : string) (st : Store) : Store :=
  assign (λ r, mkRoute (Method r) (Path r) path (RequestHeader r) (ModifyResponse r))
         a st.

Definition SetRequestHeader_body (a : nat) (header : Header) (st : Store) : Store :=
  assign (λ r, mkRoute (Method r) (Path r) (RewritePath r) header (ModifyResponse r))
         a st.

Definition SetModifyResponse_body (a : nat) (modifier : option ResponseModifier)
    (st : Store) : Store :=
  assign (λ r, mkRoute (Method r) (Path r) (RewritePath r) (RequestHeader r) modifier)
         a st.

(** A call [x.m(arg)] of a method with the value receiver [r Route], on the
    caller's variable [x] at address [a] (or on [*x] for a pointer [x] to
    it): the callee's [r] is a new variable that holds a copy of the
    receiver; the body runs; the value of [r] is returned and the callee's
    variable is gone. [None] when nothing lives at [a]. *)
Definition call_value_receiver {A : Type} (body : nat → A → Store → Store)
    (st : Store) (a : nat) (arg : A) : option (Route * Store) :=
  match st !! a with
  | None => None
  | Some x =>
      let a' := fresh (dom st) in
      let st' := body a' arg (<[a' := x]> st) in
      match st' !! a' with
      | Some r => Some (r, delete a' st')
      | None => None
      end
  end.

(** ** Imported packages *)

(** The network as a probe sees it: a probe run at instant [t] gets the
    answer of that instant. *)
Definition World := nat.

(** [http.RoundTripper]: a response (status and header; the response's
    [Request] field is the request that was sent) or an error. *)
Definition RoundTripper : Type := Request → Result ((Z * Header) + error).

(** [http.Handler] and the repository's [HttpErrorHandler]: user code that
    writes to the [http.ResponseWriter], and returns or panics. *)
Definition Handler : Type := ResponseWriter → Request → ResponseWriter * Result unit.
Definition HttpErrorHandler : Type :=
  ResponseWriter → Request → error → ResponseWriter * Result unit.

(** What the repository uses of the packages it imports. *)
Class Externals : Type := {
  (** net/textproto: [CanonicalMIMEHeaderKey], applied by [Header.Set],
      [Header.Add] and [Header.Get]. *)
  CanonicalMIMEHeaderKey : string → string;
  (** net: [DialTimeout("tcp", host, d)] at an instant; [true] when the
      returned error is nil. *)
  DialTimeout : string → Z → World → bool;
  (** httprouter: whether [HandlerFunc(method, path, h)] accepts the path
      for a method whose tree holds the given patterns (the registration
      panics otherwise). *)
  router_accepts : string → list string → string → bool;
  (** httprouter: the pattern of a method's tree that a request path
      selects, if any. *)
  router_getValue : list string → string → option string;
  (** httprouter: what [Router.ServeHTTP] does when the method's tree selects
      nothing (redirects, OPTIONS, 405 through [MethodNotAllowed], 404
      through [NotFound]), given the registered (method, pattern) pairs and
      the two handlers. *)
  router_miss : list (string * string) → option Handler → option Handler → Handler;
  (** rewrite: [NewRule(pattern, to)] is an error or a rule, and
      [rule.Rewrite(r)] updates the request in place. *)
  rewrite_NewRule : string → string → error + (Request → Request);
  (** net/http/httputil: the request that [ReverseProxy.ServeHTTP] sends out
      for an inbound one (clone, director of [NewSingleHostReverseProxy] for
      the remote, hop-by-hop headers, [X-Forwarded-For]). *)
  proxy_outgoing : URL → Request → Request;
  (** net/http/httputil: how [ReverseProxy.ServeHTTP] relays the (modified)
      response to the client. *)
  proxy_relay : Response → ResponseWriter → ResponseWriter * Result unit;
  (** net/http: [http.DefaultTransport]. *)
  DefaultTransport : RoundTripper
}.

(** ** net/http: Header methods *)

Section HeaderMethods.
Context `{Externals}.

(** [h.Set(key, value)] *)
Definition Header_Set (h : Header) (key value : string) : Header :=
  <[CanonicalMIMEHeaderKey key := [value]]> h.

(** [h.Add(key, value)]: [append(h[key], value)] *)
Definition Header_Add (h : Header) (key value : string) : Header :=
  <[CanonicalMIMEHeaderKey key :=
      (default [] (h !! CanonicalMIMEHeaderKey key) ++ [value])%list]> h.

(** [h.Values(key)] *)
Definition Header_Values (h : Header) (key : string) : list string :=
  default [] (h !! CanonicalMIMEHeaderKey key).

(** [h.Get(key)] *)
Definition Header_Get (h : Header) (key : string) : string :=
  match Header_Values h key with
  | v :: _ => v
  | [] => ""
  end.

End HeaderMethods.

(** ** httputil/header.go *)

Module httputilx.

(** The body of [for k, v := range header { h[k] = v }] along a visit
    order. *)
Definition assign_entries (h : Header) (visit : list (string * list string)) : Header :=
  foldl (λ acc kv, <[kv.1 := kv.2]> acc) h visit.

(** [MergeRequestHeaders] along given visit orders of the sources. *)
Definition MergeRequestHeaders_along (r : Request)
    (visits : list (list (string * list string))) : Request :=
  foldl (λ acc visit,
           mkRequest (req_Method acc) (req_URL acc) (req_Host acc)
                     (assign_entries (req_Header acc) visit))
        r visits.

Definition MergeRequestHeaders (r : Request) (headers : list Header) : Request :=
  MergeRequestHeaders_along r (map_to_list <$> headers).

(** [MergeResponseHeaders] along given visit orders of the sources. *)
Definition MergeResponseHeaders_along (r : Response)
    (visits : list (list (string * list string))) : Response :=
  foldl (λ acc visit,
           mkResponse (resp_StatusCode acc)
                      (assign_entries (resp_Header acc) visit)
                      (resp_Request acc))
        r visits.

Definition MergeResponseHeaders (r : Response) (headers : list Header) : Response :=
  MergeResponseHeaders_along r (map_to_list <$> headers).

Section Writer.
Context `{Externals}.

(** [for i, line := range lines] from index [i] on: [Set] at index 0,
    [Add] after it. *)
Fixpoint write_lines (h : Header) (k : string) (i : nat) (lines : list string) : Header :=
  match lines with
  | [] => h
  | line :: rest =>
      match i with
      | O => write_lines (Header_Set h k line) k (S i) rest
      | S _ => write_lines (Header_Add h k line) k (S i) rest
      end
  end.

(** [for k, lines := range header] along a visit order. *)
Definition write_entries (h : Header) (visit : list (string * list string)) : Header :=
  foldl (λ acc kv, write_lines acc kv.1 O kv.2) h visit.

(** [MergeResponseWriterHeaders] along given visit orders of the sources;
    only [w.Header()] is touched. *)
Definition MergeResponseWriterHeaders_along (w : ResponseWriter)
    (visits : list (list (string * list string))) : ResponseWriter :=
  foldl (λ acc visit,
           mkResponseWriter (write_entries (w_Header acc) visit)
                            (w_Status acc) (w_Body acc))
        w visits.

Definition MergeResponseWriterHeaders (w : ResponseWriter) (headers : list Header)
    : ResponseWriter :=
  MergeResponseWriterHeaders_along w (map_to_list <$> headers).

End Writer.
End httputilx.

(** ** health/healthcheck.go *)

Module health.

(** A probe, [func(addr *url.URL) bool], run at an instant. *)
Definition Probe : Type := URL → World → bool.

(** Where the goroutine started by [run] stands: blocked in its [select];
    past the ticker case and inside [checkHealth], waiting for [h.mu]; or
    panicked in [time.NewTicker], which refuses a period that is not
    positive. *)
Inductive LoopStatus : Type :=
  | Selecting
  | Checking
  | TickerPanic.

Global Instance LoopStatus_eq_dec : EqDecision LoopStatus.
Proof. solve_decision. Defined.

(** A goroutine of [run]; [loop_period] is the period its ticker was made
    with. *)
Record Loop : Type := mkLoop {
  loop_period : Z;
  loop_status : LoopStatus
}.

(** [type HealthCheck struct], with the channels it has made ([chan_next]
    counts them, [chan_closed] holds the closed ones), the goroutines of
    [run] that are alive and the current instant. A nil [cancel] is [None].
    [mu] is not a field here: every method below runs with [mu] held from
    its first to its last statement, so methods and [checkHealth] are the
    atomic steps. *)
Record HealthCheck : Type := mkHealthCheck {
  origin : URL;
  check : Probe;
  period : Z;
  cancel : option nat;
  isAvailable : bool;
  chan_next : nat;
  chan_closed : gset nat;
  loops : list Loop;
  now : World
}.

(** How a call on the monitor ends: it returns, it panics, or it blocks for
    ever. *)
Inductive Outcome (A : Type) : Type :=
  | Done (a : A)
  | Fault (val : string)
  | Blocked.
Arguments Done {A} a.
Arguments Fault {A} val.
Arguments Blocked {A}.

(** The channel in [cancel] is open, and every channel made so far is below
    [chan_next]. *)
Definition monitor_inv (h : HealthCheck) : Prop :=
  (∀ c, cancel h = Some c →
        (c ∉ chan_closed h) ∧ (c < chan_next h)%nat)
  ∧ (∀ c, c ∈ chan_closed h → (c < chan_next h)%nat).

Definition defaultHealthCheckTimeout : Z := 10 * 1000000000.
Definition defaultHealthCheckPeriod : Z := 10 * 1000000000.

Section WithExternals.
Context `{Externals}.

Definition defaultHealthCheckFunc : Probe :=
  λ addr t, DialTimeout (url_Host addr) defaultHealthCheckTimeout t.

(** [run]: one more goroutine, with a ticker of the current period, blocked
    in its [select]; when the period is not positive [time.NewTicker]
    panics in that goroutine and it never selects. *)
Definition run (h : HealthCheck) : HealthCheck :=
  mkHealthCheck (origin h) (check h) (period h) (cancel h) (isAvailable h)
    (chan_next h) (chan_closed h)
    (loops h ++ [mkLoop (period h)
                   (if 0 <? period h then Selecting else TickerPanic)])%list
    (now h).

(** The goroutine that takes a value sent on [h.cancel]: one that is blocked
    in its [select]; it stops its ticker and returns. *)
Fixpoint receive (ls : list Loop) : option (list Loop) :=
  match ls with
  | [] => None
  | l :: rest =>
      match loop_status l with
      | Selecting => Some rest
      | Checking | TickerPanic =>
          match receive rest with
          | Some rest' => Some (l :: rest')
          | None => None
          end
      end
  end.

(** [stop]: when [cancel] is not nil, send on it (unbuffered: the send
    returns once a goroutine has received), close it, set it to nil. *)
Definition stop (h : HealthCheck) : Outcome HealthCheck :=
  match cancel h with
  | None => Done h
  | Some c =>
      if decide (c ∈ chan_closed h) then Fault "send on closed channel"
      else
        match receive (loops h) with
        | None => Blocked
        | Some ls =>
            (* close(h.cancel) panics on a closed channel *)
            if decide (c ∈ chan_closed h) then Fault "close of closed channel"
            else Done (mkHealthCheck (origin h) (check h) (period h) None
                         (isAvailable h) (chan_next h)
                         ({[c]} ∪ chan_closed h) ls (now h))
        end
  end.

(** [NewHealthCheck] at instant [t]. *)
Definition NewHealthCheck (o : URL) (t : World) : HealthCheck :=
  run (mkHealthCheck o defaultHealthCheckFunc defaultHealthCheckPeriod
         (Some O) (defaultHealthCheckFunc o t) 1%nat ∅ [] (S t)).

Definition IsAvailable (h : HealthCheck) : bool := isAvailable h.

Definition SetCheckFunc (h : HealthCheck) (chk : Probe) (per : Z)
    : Outcome HealthCheck :=
  match stop h with
  | Done h1 =>
      Done (run (mkHealthCheck (origin h1) chk per (Some (chan_next h1))
                   (chk (origin h1) (now h1)) (S (chan_next h1))
                   (chan_closed h1) (loops h1) (S (now h1))))
  | Fault v => Fault v
  | Blocked => Blocked
  end.

Definition Stop (h : HealthCheck) : Outcome HealthCheck := stop h.

(** The ticker of goroutine [i] fires and its [select] takes that case. *)
Definition tick (h : HealthCheck) (i : nat) : option HealthCheck :=
  match loops h !! i with
  | Some (mkLoop p Selecting) =>
      Some (mkHealthCheck (origin h) (check h) (period h) (cancel h)
              (isAvailable h) (chan_next h) (chan_closed h)
              (<[i := mkLoop p Checking]> (loops h)) (now h))
  | _ => None
  end.

(** [checkHealth] of goroutine [i]: with [mu] held, probe and store; then
    back to the [select]. *)
Definition checkHealth (h : HealthCheck) (i : nat) : option HealthCheck :=
  match loops h !! i with
  | Some (mkLoop p Checking) =>
      Some (mkHealthCheck (origin h) (check h) (period h) (cancel h)
              (check h (origin h) (now h)) (chan_next h) (chan_closed h)
              (<[i := mkLoop p Selecting]> (loops h)) (S (now h)))
  | _ => None
  end.

(** What can happen to a monitor: the calls of its clients and the steps of
    its goroutines. *)
Inductive Action : Type :=
  | ASetCheckFunc (chk : Probe) (per : Z)
  | AStop
  | AIsAvailable
  | ATick (i : nat)
  | ACheckHealth (i : nat).

Definition act (h : HealthCheck) (a : Action) : Outcome HealthCheck :=
  match a with
  | ASetCheckFunc chk per => SetCheckFunc h chk per
  | AStop => Stop h
  | AIsAvailable => Done h
  | ATick i => match tick h i with Some h' => Done h' | None => Done h end
  | ACheckHealth i => match checkHealth h i with Some h' => Done h' | None => Done h end
  end.

(** A history that never faults nor blocks ends in a state. *)
Fixpoint acts (h : HealthCheck) (l : list Action) : Outcome HealthCheck :=
  match l with
  | [] => Done h
  | a :: rest =>
      match act h a with
      | Done h' => acts h' rest
      | Fault v => Fault v
      | Blocked => Blocked
      end
  end.

End WithExternals.
End health.

(** ** package reverseproxy: the dispatcher *)

(** [type ResponseModifierMap map[string]map[string]ResponseModifier] *)
Abbreviation ResponseModifierMap := (gmap string (gmap string ResponseModifier)).

(** The fields of [httputil.ReverseProxy] that [ServeHTTP] assigns.
    [rp_ModifyResponse] tells whether the closure of [ServeHTTP] is
    installed; the closure reads the dispatcher when it is called. *)
Record ReverseProxy : Type := mkReverseProxy {
  rp_Transport : option RoundTripper;
  rp_ErrorHandler : option HttpErrorHandler;
  rp_ModifyResponse : bool
}.

(** The [httprouter.Router]: the registered handlers, each the closure of
    [HandlePath] over its method's route, and the hooks that [ServeHTTP]
    assigns. [rt_PanicHandler] tells whether the closure of [ServeHTTP] is
    installed. *)
Record Router : Type := mkRouter {
  rt_handlers : list (string * string * Route);
  rt_NotFound : option Handler;
  rt_MethodNotAllowed : option Handler;
  rt_PanicHandler : bool
}.

(** [type ReverseProxyMux struct] *)
Record ReverseProxyMux : Type := mkReverseProxyMux {
  pm_proxy : ReverseProxy;
  pm_remote : URL;
  pm_router : Router;
  pm_modifiers : ResponseModifierMap;
  pm_health : health.HealthCheck;
  pm_load : Z;
  pm_Transport : option RoundTripper;
  pm_RequestHeader : Header;
  pm_ModifyResponse : option ResponseModifier;
  pm_ErrorHandler : option HttpErrorHandler;
  pm_NotFoundHandler : option Handler;
  pm_MethodNotAllowedHandler : option Handler
}.

Definition with_load (pm : ReverseProxyMux) (l : Z) : ReverseProxyMux :=
  mkReverseProxyMux (pm_proxy pm) (pm_remote pm) (pm_router pm) (pm_modifiers pm)
    (pm_health pm) l (pm_Transport pm) (pm_RequestHeader pm)
    (pm_ModifyResponse pm) (pm_ErrorHandler pm) (pm_NotFoundHandler pm)
    (pm_MethodNotAllowedHandler pm).

Definition with_proxy_router (pm : ReverseProxyMux) (p : ReverseProxy) (rt : Router)
    : ReverseProxyMux :=
  mkReverseProxyMux p (pm_remote pm) rt (pm_modifiers pm)
    (pm_health pm) (pm_load pm) (pm_Transport pm) (pm_RequestHeader pm)
    (pm_ModifyResponse pm) (pm_ErrorHandler pm) (pm_NotFoundHandler pm)
    (pm_MethodNotAllowedHandler pm).

Definition with_modifiers (pm : ReverseProxyMux) (ms : ResponseModifierMap)
    : ReverseProxyMux :=
  mkReverseProxyMux (pm_proxy pm) (pm_remote pm) (pm_router pm) ms
    (pm_health pm) (pm_load pm) (pm_Transport pm) (pm_RequestHeader pm)
    (pm_ModifyResponse pm) (pm_ErrorHandler pm) (pm_NotFoundHandler pm)
    (pm_MethodNotAllowedHandler pm).

(** The panic of a call through a nil func value. *)
Definition nil_deref : string :=
  "runtime error: invalid memory address or nil pointer dereference".

(** [fmt.Errorf("%v", val)] *)
Definition Errorf_v (val : string) : error := val.

(** net/http/httputil: [defaultErrorHandler] logs and answers 502. *)
Definition StatusBadGateway : Z := 502.
Definition defaultErrorHandler : HttpErrorHandler :=
  λ w _ _, (mkResponseWriter (w_Header w) (Some StatusBadGateway) (w_Body w),
            Returned tt).

Section Dispatcher.
Context `{Externals}.

(** The patterns in the router's tree of a method. *)
Definition patterns_of (hs : list (string * string * Route)) (method : string)
    : list string :=
  (λ e, e.1.2) <$> filter (λ e, e.1.1 = method) hs.

(** The handler registered for a method and pattern: the route its closure
    captured. *)
Definition handler_of (hs : list (string * string * Route)) (method pattern : string)
    : option Route :=
  match list_find (λ e, e.1.1 = method ∧ e.1.2 = pattern) hs with
  | Some (_, e) => Some e.2
  | None => None
  end.

(** The closure that [ServeHTTP] assigns to [pm.proxy.ModifyResponse]. *)
Definition ServeHTTP_ModifyResponse (pm : ReverseProxyMux) : ResponseModifier :=
  λ r,
    let route_part (r : Response) : Result (Response * option error) :=
      match pm_modifiers pm !! req_Method (resp_Request r)
              ≫= (λ byPath, byPath !! url_Path (req_URL (resp_Request r))) with
      | Some modifier =>
          match modifier r with
          | Returned (r', Some err) => Returned (r', Some err)
          | Returned (r', None) => Returned (r', None)
          | Panicked v => Panicked v
          end
      | None => Returned (r, None)
      end in
    match pm_ModifyResponse pm with
    | Some global =>
        match global r with
        | Returned (r', Some err) => Returned (r', Some err)
        | Returned (r', None) => route_part r'
        | Panicked v => Panicked v
        end
    | None => route_part r
    end.

(** net/http/httputil: [ReverseProxy.ServeHTTP] as far as the dispatcher
    drives it: send the outgoing request through the transport, hand a
    transport error to the error handler, run [ModifyResponse] and hand its
    error to the error handler, otherwise relay the response. *)
Definition proxy_transport (p : ReverseProxy) : RoundTripper :=
  default DefaultTransport (rp_Transport p).

Definition proxy_getErrorHandler (p : ReverseProxy) : HttpErrorHandler :=
  default defaultErrorHandler (rp_ErrorHandler p).

Definition proxy_ServeHTTP (pm : ReverseProxyMux) (w : ResponseWriter) (r : Request)
    : ResponseWriter * Result unit :=
  let outreq := proxy_outgoing (pm_remote pm) r in
  let transport := proxy_transport (pm_proxy pm) in
  let getErrorHandler := proxy_getErrorHandler (pm_proxy pm) in
  match transport outreq with
  | Panicked v => (w, Panicked v)
  | Returned (inr err) => getErrorHandler w outreq err
  | Returned (inl (status, header)) =>
      let res := mkResponse status header outreq in
      if rp_ModifyResponse (pm_proxy pm) then
        match ServeHTTP_ModifyResponse pm res with
        | Panicked v => (w, Panicked v)
        | Returned (_, Some err) => getErrorHandler w outreq err
        | Returned (res', None) => proxy_relay res' w
        end
      else proxy_relay res w
  end.

(** The closure that [HandlePath] registers for a route works on the
    request in place, in three steps before it calls [pm.proxy.ServeHTTP].
    First the forwarding metadata: the two [Header.Set] and the assignment
    to [r.Host]. *)
Definition HandlePath_metadata (pm : ReverseProxyMux) (r : Request) : Request :=
  let r1 := mkRequest (req_Method r) (req_URL r) (req_Host r)
              (Header_Set (req_Header r) "X-Forwarded-Proto" (url_Scheme (req_URL r))) in
  let r2 := mkRequest (req_Method r1) (req_URL r1) (req_Host r1)
              (Header_Set (req_Header r1) "X-Forwarded-Host" (req_Host r1)) in
  mkRequest (req_Method r2) (req_URL r2) (url_Host (pm_remote pm)) (req_Header r2).

(** Second, [if route.RewritePath != ""]: the rule is made and applied, or
    making it fails. *)
Definition HandlePath_rewrite (route : Route) (r : Request) : error + Request :=
  if String.eqb (RewritePath route) "" then inr r
  else
    match rewrite_NewRule (Path route) (RewritePath route) with
    | inl err => inl err
    | inr rewriter => inr (rewriter r)
    end.

(** Third, [MergeRequestHeaders(r, pm.RequestHeader, route.RequestHeader)]. *)
Definition HandlePath_merge (pm : ReverseProxyMux) (route : Route) (r : Request)
    : Request :=
  httputilx.MergeRequestHeaders r [pm_RequestHeader pm; RequestHeader route].

(** The three steps: the state of the request, and the error of
    [rewrite.NewRule] if there is one. *)
Definition HandlePath_prepare (pm : ReverseProxyMux) (route : Route) (r : Request)
    : Request * option error :=
  let r3 := HandlePath_metadata pm r in
  match HandlePath_rewrite route r3 with
  | inl err => (r3, Some err)
  | inr r4 => (HandlePath_merge pm route r4, None)
  end.

(** The closure that [HandlePath] registers for a route; the final state of
    the request is returned with the writer. *)
Definition HandlePath_handler (pm : ReverseProxyMux) (route : Route)
    (w : ResponseWriter) (r : Request) : ResponseWriter * Request * Result unit :=
  match HandlePath_prepare pm route r with
  | (r', Some err) =>
      match pm_ErrorHandler pm with
      | Some handler => let '(w', res) := handler w r' err in (w', r', res)
      | None => (w, r', Panicked nil_deref)
      end
  | (r', None) =>
      let '(w', res) := proxy_ServeHTTP pm w r' in (w', r', res)
  end.

(** The closure that [ServeHTTP] assigns to [pm.router.PanicHandler]. *)
Definition ServeHTTP_PanicHandler (pm : ReverseProxyMux)
    (w : ResponseWriter) (r : Request) (val : string) : ResponseWriter * Result unit :=
  match pm_ErrorHandler pm with
  | Some handler => handler w r (Errorf_v val)
  | None => (w, Panicked nil_deref)
  end.

(** httprouter: the deferred [recv] of [Router.ServeHTTP]. A panic of the
    handler is recovered and handed to [PanicHandler] when one is installed;
    it goes on to the caller otherwise. *)
Definition router_recv (pm : ReverseProxyMux)
    (out : ResponseWriter * Request * Result unit) : ResponseWriter * Result unit :=
  match out with
  | (w, _, Returned tt) => (w, Returned tt)
  | (w, r, Panicked val) =>
      if rt_PanicHandler (pm_router pm) then ServeHTTP_PanicHandler pm w r val
      else (w, Panicked val)
  end.

(** httprouter: the route whose handler the router selects for a request. *)
Definition router_lookup (rt : Router) (r : Request) : option Route :=
  router_getValue (patterns_of (rt_handlers rt) (req_Method r)) (url_Path (req_URL r))
    ≫= handler_of (rt_handlers rt) (req_Method r).

(** httprouter: [Router.ServeHTTP]. *)
Definition router_ServeHTTP (pm : ReverseProxyMux) (w : ResponseWriter) (r : Request)
    : ResponseWriter * Result unit :=
  let rt := pm_router pm in
  router_recv pm
    match router_lookup rt r with
    | Some route => HandlePath_handler pm route w r
    | None =>
        let '(w', res) :=
          router_miss ((λ e, e.1) <$> rt_handlers rt)
                      (rt_NotFound rt) (rt_MethodNotAllowed rt) w r in
        (w', r, res)
    end.

(** [ServeHTTP], first statement: [atomic.AddInt32(&pm.load, 1)]. *)
Definition ServeHTTP_enter (pm : ReverseProxyMux) : ReverseProxyMux :=
  with_load pm (AddInt32 (pm_load pm) 1).

(** [ServeHTTP], the deferred [atomic.AddInt32(&pm.load, -1)]. *)
Definition ServeHTTP_exit (pm : ReverseProxyMux) : ReverseProxyMux :=
  with_load pm (AddInt32 (pm_load pm) (-1)).

(** [ServeHTTP], the assignments to [pm.proxy] and [pm.router]. *)
Definition ServeHTTP_configure (pm : ReverseProxyMux) : ReverseProxyMux :=
  let p := pm_proxy pm in
  let rt := pm_router pm in
  let transport :=
    match pm_Transport pm with
    | Some t => Some t
    | None => rp_Transport p
    end in
  match pm_ErrorHandler pm with
  | Some handler =>
      with_proxy_router pm
        (mkReverseProxy transport (Some handler) true)
        (mkRouter (rt_handlers rt) (pm_NotFoundHandler pm)
                  (pm_MethodNotAllowedHandler pm) true)
  | None =>
      with_proxy_router pm
        (mkReverseProxy transport (rp_ErrorHandler p) true)
        (mkRouter (rt_handlers rt) (pm_NotFoundHandler pm)
                  (pm_MethodNotAllowedHandler pm) (rt_PanicHandler rt))
  end.

(** [ServeHTTP]: the body between the increment and the deferred
    decrement. *)
Definition ServeHTTP_body (pm : ReverseProxyMux) (w : ResponseWriter) (r : Request)
    : ReverseProxyMux * (ResponseWriter * Result unit) :=
  let pm' := ServeHTTP_configure pm in
  (pm', router_ServeHTTP pm' w r).

(** [ServeHTTP]: the deferred decrement runs whether the body returns or
    panics; a panic then goes on to the caller. *)
Definition ServeHTTP (pm : ReverseProxyMux) (w : ResponseWriter) (r : Request)
    : ReverseProxyMux * (ResponseWriter * Result unit) :=
  let '(pm', out) := ServeHTTP_body (ServeHTTP_enter pm) w r in
  (ServeHTTP_exit pm', out).

(** [HandlePath]: the loop over [route.Method]; a panic of the router's
    registration ends it. *)
Fixpoint HandlePath_range (pm : ReverseProxyMux) (route : Route) (methods : list string)
    : ReverseProxyMux * Result unit :=
  match methods with
  | [] => (pm, Returned tt)
  | method :: rest =>
      let rt := pm_router pm in
      if router_accepts method (patterns_of (rt_handlers rt) method) (Path route) then
        let pm1 :=
          with_proxy_router pm (pm_proxy pm)
            (mkRouter (rt_handlers rt ++ [(method, Path route, route)])%list
                      (rt_NotFound rt) (rt_MethodNotAllowed rt) (rt_PanicHandler rt)) in
        let pm2 :=
          match ModifyResponse route with
          | Some modifier =>
              with_modifiers pm1
                (<[method := <[Path route := modifier]>
                               (default ∅ (pm_modifiers pm1 !! method))]>
                   (pm_modifiers pm1))
          | None => pm1
          end in
        HandlePath_range pm2 route rest
      else (pm, Panicked "httprouter: the path cannot be registered")
  end.

Definition HandlePath (pm : ReverseProxyMux) (route : Route)
    : ReverseProxyMux * Result unit :=
  HandlePath_range pm route (Method route).

Definition PassPath (pm : ReverseProxyMux) (methods path : string)
    : ReverseProxyMux * Result unit :=
  HandlePath pm (NewRoute methods path).

(** [RewritePath]: the route is built, then its field is assigned. *)
Definition RewritePath_ (pm : ReverseProxyMux) (methods sourcePath targetPath : string)
    : ReverseProxyMux * Result unit :=
  let route := NewRoute methods sourcePath in
  let route := mkRoute (Method route) (Path route) targetPath
                       (RequestHeader route) (ModifyResponse route) in
  HandlePath pm route.

(** [GetLoad]: [atomic.LoadInt32(&p.load)] *)
Definition GetLoad (p : ReverseProxyMux) : Z := pm_load p.

(** [IsAvailable] *)
Definition IsAvailable (p : ReverseProxyMux) : bool := health.IsAvailable (pm_health p).

(** ** Requests served concurrently

    Each request runs [ServeHTTP] on a goroutine of its own. The accesses to
    [pm.load] are atomic, so a run of the server is an interleaving of the
    requests' steps: the increment, the body, the deferred decrement. *)

Inductive Phase : Type :=
  | Waiting      (* not yet in ServeHTTP *)
  | Entered      (* past the increment *)
  | Served (out : Result unit)   (* the body has returned or panicked *)
  | Finished (out : Result unit) (* past the deferred decrement *).

Record Server : Type := mkServer {
  sv_mux : ReverseProxyMux;
  sv_requests : list (Request * ResponseWriter * Phase)
}.

(** In flight: past the increment and not past the decrement. *)
Definition in_flight (p : Phase) : bool :=
  match p with
  | Entered | Served _ => true
  | Waiting | Finished _ => false
  end.

Definition completed (p : Phase) : bool :=
  match p with
  | Finished _ => true
  | _ => false
  end.

Definition count_in_flight (s : Server) : nat :=
  length (filter (λ e, in_flight e.2 = true) (sv_requests s)).

(** One step of request [i]. *)
Definition server_step (s : Server) (i : nat) : option Server :=
  match sv_requests s !! i with
  | Some (r, w, Waiting) =>
      Some (mkServer (ServeHTTP_enter (sv_mux s))
                     (<[i := (r, w, Entered)]> (sv_requests s)))
  | Some (r, w, Entered) =>
      let '(pm', (w', out)) := ServeHTTP_body (sv_mux s) w r in
      Some (mkServer pm' (<[i := (r, w', Served out)]> (sv_requests s)))
  | Some (r, w, Served out) =>
      Some (mkServer (ServeHTTP_exit (sv_mux s))
                     (<[i := (r, w, Finished out)]> (sv_requests s)))
  | Some (_, _, Finished _) | None => None
  end.

(** A schedule names the request that steps next; a name that cannot step
    is skipped. *)
Fixpoint server_run (s : Server) (schedule : list nat) : Server :=
  match schedule with
  | [] => s
  | i :: rest =>
      match server_step s i with
      | Some s' => server_run s' rest
      | None => server_run s rest
      end
  end.

(** The server before any request has entered. *)
Definition server_start (pm : ReverseProxyMux) (reqs : list (Request * ResponseWriter))
    : Server :=
  mkServer (with_load pm 0) ((λ rw, (rw.1, rw.2, Waiting)) <$> reqs).

(** The counter is the number of requests in flight, as an [int32]. *)
Definition load_inv (s : Server) : Prop :=
  pm_load (sv_mux s) = wrap32 (Z.of_nat (count_in_flight s)).

End Dispatcher.

(** ** A reference instance of the imported packages

    Used to run the embedding on concrete requests. It follows the packages
    on the inputs of the examples: header keys made of token bytes, route
    patterns without parameters or wildcards, a remote without a path. *)

Module reference.

Definition is_lower (c : ascii) : bool :=
  (97 <=? nat_of_ascii c)%nat && (nat_of_ascii c <=? 122)%nat.
Definition is_upper (c : ascii) : bool :=
  (65 <=? nat_of_ascii c)%nat && (nat_of_ascii c <=? 90)%nat.
Definition is_digit (c : ascii) : bool :=
  (48 <=? nat_of_ascii c)%nat && (nat_of_ascii c <=? 57)%nat.

(** net/textproto: [validHeaderFieldByte], the token bytes of RFC 7230. *)
Definition validHeaderFieldByte (c : ascii) : bool :=
  is_lower c || is_upper c || is_digit c
  || bool_decide (c ∈ ["!"; "#"; "$"; "%"; "&"; "'"; "*"; "+"; "-"; "."; "^";
                       "_"; "`"; "|"; "~"]%char).

Fixpoint all_bytes (p : ascii → bool) (s : string) : bool :=
  match s with
  | EmptyString => true
  | String c s' => p c && all_bytes p s'
  end.

(** Upper case for the first byte and after each dash, lower case
    elsewhere. *)
Fixpoint capitalize (upper : bool) (s : string) : string :=
  match s with
  | EmptyString => EmptyString
  | String c s' =>
      let c' :=
        if upper && is_lower c then ascii_of_nat (nat_of_ascii c - 32)
        else if negb upper && is_upper c then ascii_of_nat (nat_of_ascii c + 32)
        else c in
      String c' (capitalize (Ascii.eqb c' "-") s')
  end.

(** net/textproto: a key with a byte that is not a token byte is left as it
    is. *)
Definition canonical (s : string) : string :=
  if all_bytes validHeaderFieldByte s then capitalize true s else s.

(** The origin answers a dial at even instants. *)
Definition dial (host : string) (timeout : Z) (t : World) : bool := Nat.even t.

(** httprouter refuses an empty method, a path that does not start with a
    slash and a path already in the tree. *)
Definition accepts (method : string) (patterns : list string) (path : string) : bool :=
  negb (String.eqb method "")
  && match path with String "/" _ => true | _ => false end
  && bool_decide (path ∉ patterns).

(** A tree of literal patterns selects the pattern equal to the path. *)
Definition getValue (patterns : list string) (path : string) : option string :=
  if bool_decide (path ∈ patterns) then Some path else None.

Definition StatusNotFound : Z := 404.

(** No pattern of any method is selected: the [NotFound] handler, or
    [http.NotFound]. *)
Definition miss (registered : list (string * string))
    (notFound methodNotAllowed : option Handler) : Handler :=
  λ w r,
    match notFound with
    | Some h => h w r
    | None => (mkResponseWriter (w_Header w) (Some StatusNotFound)
                 ["404 page not found"], Returned tt)
    end.

(** rewrite: a pattern with an unbalanced parenthesis does not compile; a
    literal pattern rewrites the path it is equal to. *)
Definition NewRule (pattern to : string) : error + (Request → Request) :=
  if negb (Nat.eqb (strings.Count pattern "(") (strings.Count pattern ")")) then
    inl "error parsing regexp: missing closing )"
  else
    inr (λ r,
           if String.eqb (url_Path (req_URL r)) pattern then
             mkRequest (req_Method r)
               (mkURL (url_Scheme (req_URL r)) (url_Host (req_URL r)) to)
               (req_Host r) (req_Header r)
           else r).

(** The director of [NewSingleHostReverseProxy]: scheme and host of the
    remote, the remote's path joined with the request's. *)
Definition outgoing (remote : URL) (r : Request) : Request :=
  mkRequest (req_Method r)
    (mkURL (url_Scheme remote) (url_Host remote)
           (url_Path remote +:+ url_Path (req_URL r)))
    (req_Host r) (req_Header r).

(** The response's header and status are copied to the client. *)
Definition relay (res : Response) (w : ResponseWriter) : ResponseWriter * Result unit :=
  (mkResponseWriter (resp_Header res) (Some (resp_StatusCode res)) (w_Body w),
   Returned tt).

Definition StatusOK : Z := 200.

(** The origin answers every request with 200 and no header. *)
Definition transport : RoundTripper := λ _, Returned (inl (StatusOK, ∅)).

Definition externals : Externals :=
  {| CanonicalMIMEHeaderKey := canonical;
     DialTimeout := dial;
     router_accepts := accepts;
     router_getValue := getValue;
     router_miss := miss;
     rewrite_NewRule := NewRule;
     proxy_outgoing := outgoing;
     proxy_relay := relay;
     DefaultTransport := transport |}.

End reference.

(** ** Example dispatchers

    The dispatcher that [New("http://my-backend:8000")] returns, at instant
    0, and routes registered on it, run with the reference instance. *)

Module examples.

#[local] Existing Instance reference.externals.

Definition remote : URL := mkURL "http" "my-backend:8000" "".

Definition pm0 : ReverseProxyMux :=
  mkReverseProxyMux (mkReverseProxy None None false) remote
    (mkRouter [] None None false) ∅ (health.NewHealthCheck remote O) 0
    None ∅ None None None None.

(** A modifier that marks the response with a header. *)
Definition mark (key : string) : ResponseModifier :=
  λ res, Returned (mkResponse (resp_StatusCode res)
                     (<[key := ["seen"]]> (resp_Header res))
                     (resp_Request res), None).

(** A modifier that panics. *)
Definition boom : ResponseModifier := λ _, Panicked "boom".

(** A modifier that fails. *)
Definition refuse : ResponseModifier := λ res, Returned (res, Some "refused").

(** An error handler that answers 500 with the error's message. *)
Definition StatusInternalServerError : Z := 500.
Definition report : HttpErrorHandler :=
  λ w _ err, (mkResponseWriter (w_Header w) (Some StatusInternalServerError)
                (w_Body w ++ [err])%list, Returned tt).

Definition with_hooks (pm : ReverseProxyMux) (global : option ResponseModifier)
    (handler : option HttpErrorHandler) : ReverseProxyMux :=
  mkReverseProxyMux (pm_proxy pm) (pm_remote pm) (pm_router pm) (pm_modifiers pm)
    (pm_health pm) (pm_load pm) (pm_Transport pm) (pm_RequestHeader pm)
    global handler (pm_NotFoundHandler pm) (pm_MethodNotAllowedHandler pm).

(** [GET /posts] with its own modifier, forwarded as it is. *)
Definition route_plain : Route :=
  SetModifyResponse (NewRoute "GET" "/posts") (Some (mark "X-Route")).

(** [GET /posts] with its own modifier, rewritten to [/api/posts]. *)
Definition route_rewritten : Route :=
  SetModifyResponse (SetRewritePath (NewRoute "GET" "/posts") "/api/posts")
                    (Some (mark "X-Route")).

(** [GET /boom], whose modifier panics. *)
Definition route_boom : Route :=
  SetModifyResponse (NewRoute "GET" "/boom") (Some boom).

(** [GET /a(b], whose rewrite rule does not compile. *)
Definition route_bad_rule : Route :=
  SetRewritePath (NewRoute "GET" "/a(b") "/c".

Definition get (path : string) : Request :=
  mkRequest "GET" (mkURL "" "" path) "proxy.example" ∅.

Definition w0 : ResponseWriter := mkResponseWriter ∅ None [].

End examples.

(** ** More of the packages: builder chains, the registration helpers, the
    constructor *)

(** A call of one of the three setters of [Route]. *)
Inductive SetterCall : Type :=
  | CallSetRewritePath (path : string)
  | CallSetRequestHeader (header : Header)
  | CallSetModifyResponse (modifier : option ResponseModifier).

Definition call_setter (r : Route) (c : SetterCall) : Route :=
  match c with
  | CallSetRewritePath path => SetRewritePath r path
  | CallSetRequestHeader header => SetRequestHeader r header
  | CallSetModifyResponse modifier => SetModifyResponse r modifier
  end.

(** A builder chain [r.SetA(..).SetB(..)...]: each call is made on the value
    the one before it returned. *)
Definition setter_chain (r : Route) (calls : list SetterCall) : Route :=
  foldl call_setter r calls.

(** The arguments of the calls of each setter in a chain, in order. *)
Definition rewrite_args (calls : list SetterCall) : list string :=
  omap (λ c, match c with CallSetRewritePath p => Some p | _ => None end) calls.
Definition header_args (calls : list SetterCall) : list Header :=
  omap (λ c, match c with CallSetRequestHeader h => Some h | _ => None end) calls.
Definition modifier_args (calls : list SetterCall) : list (option ResponseModifier) :=
  omap (λ c, match c with CallSetModifyResponse m => Some m | _ => None end) calls.

(** The statements [pm.ErrorHandler = h] and [pm.Transport = t] of a user of
    the dispatcher. *)
Definition assign_ErrorHandler (pm : ReverseProxyMux) (h : option HttpErrorHandler)
    : ReverseProxyMux :=
  mkReverseProxyMux (pm_proxy pm) (pm_remote pm) (pm_router pm) (pm_modifiers pm)
    (pm_health pm) (pm_load pm) (pm_Transport pm) (pm_RequestHeader pm)
    (pm_ModifyResponse pm) h (pm_NotFoundHandler pm)
    (pm_MethodNotAllowedHandler pm).

Definition assign_Transport (pm : ReverseProxyMux) (t : option RoundTripper)
    : ReverseProxyMux :=
  mkReverseProxyMux (pm_proxy pm) (pm_remote pm) (pm_router pm) (pm_modifiers pm)
    (pm_health pm) (pm_load pm) t (pm_RequestHeader pm)
    (pm_ModifyResponse pm) (pm_ErrorHandler pm) (pm_NotFoundHandler pm)
    (pm_MethodNotAllowedHandler pm).

(** What the constructor and [PassAnyPathUnder] use of the packages they
    import. *)
Class SetupExternals : Type := {
  (** net/url: [url.Parse] *)
  url_Parse : string → error + URL;
  (** path/filepath: [filepath.Join] of two elements *)
  filepath_Join : string → string → string
}.

Section Setup.
Context `{Externals} `{SetupExternals}.

(** [PassPaths]: the loop over [paths]; the result of each [PassPath] is
    dropped, a panic ends the loop. *)
Fixpoint PassPaths (pm : ReverseProxyMux) (methods : string) (paths : list string)
    : ReverseProxyMux * Result unit :=
  match paths with
  | [] => (pm, Returned tt)
  | path :: rest =>
      match PassPath pm methods path with
      | (pm', Returned tt) => PassPaths pm' methods rest
      | (pm', Panicked v) => (pm', Panicked v)
      end
  end.

Definition PassAnyPath (pm : ReverseProxyMux) (methods : string)
    : ReverseProxyMux * Result unit :=
  PassPath pm methods "/*path".

Fixpoint PassAnyPathUnder (pm : ReverseProxyMux) (methods : string) (paths : list string)
    : ReverseProxyMux * Result unit :=
  match paths with
  | [] => (pm, Returned tt)
  | path :: rest =>
      match PassPath pm methods (filepath_Join path "/*path") with
      | (pm', Returned tt) => PassAnyPathUnder pm' methods rest
      | (pm', Panicked v) => (pm', Panicked v)
      end
  end.

(** [New] at instant [t]: the error of [url.Parse], or a dispatcher with the
    proxy of [httputil.NewSingleHostReverseProxy] and the router of
    [httprouter.New] (no hook set in either), an empty modifier map, a
    running health monitor and the zero load. *)
Definition New (remote : string) (t : World) : error + ReverseProxyMux :=
  match url_Parse remote with
  | inl err => inl err
  | inr remoteUrl =>
      inr (mkReverseProxyMux (mkReverseProxy None None false) remoteUrl
             (mkRouter [] None None false) ∅
             (health.NewHealthCheck remoteUrl t) 0
             None ∅ None None None None)
  end.

(** [SetHealthCheckFunc]: the call goes to the health monitor. *)
Definition SetHealthCheckFunc (p : ReverseProxyMux) (chk : health.Probe) (per : Z)
    : health.Outcome ReverseProxyMux :=
  match health.SetCheckFunc (pm_health p) chk per with
  | health.Done h' =>
      health.Done
        (mkReverseProxyMux (pm_proxy p) (pm_remote p) (pm_router p) (pm_modifiers p)
           h' (pm_load p) (pm_Transport p) (pm_RequestHeader p)
           (pm_ModifyResponse p) (pm_ErrorHandler p) (pm_NotFoundHandler p)
           (pm_MethodNotAllowedHandler p))
  | health.Fault v => health.Fault v
  | health.Blocked => health.Blocked
  end.

End Setup.

(** [pm.modifiers[method][path]], with its [ok]. *)
Definition modifier_at (ms : ResponseModifierMap) (method path : string)
    : option ResponseModifier :=
  ms !! method ≫= (λ byPath, byPath !! path).

(** The handlers that [HandlePath] adds to the router for a route and a list
    of methods. *)
Definition handlers_for (route : Route) (methods : list string)
    : list (string * string * Route) :=
  (λ method, (method, Path route, route)) <$> methods.

(** Two dispatchers with the same remote, health monitor and exported
    fields. *)
Definition same_settings (pm pm' : ReverseProxyMux) : Prop :=
  pm_remote pm' = pm_remote pm
  ∧ pm_health pm' = pm_health pm
  ∧ pm_Transport pm' = pm_Transport pm
  ∧ pm_RequestHeader pm' = pm_RequestHeader pm
  ∧ pm_ModifyResponse pm' = pm_ModifyResponse pm
  ∧ pm_ErrorHandler pm' = pm_ErrorHandler pm
  ∧ pm_NotFoundHandler pm' = pm_NotFoundHandler pm
  ∧ pm_MethodNotAllowedHandler pm' = pm_MethodNotAllowedHandler pm.

(** Two dispatchers with the same proxy, load and router hooks. *)
Definition same_engine (pm pm' : ReverseProxyMux) : Prop :=
  pm_proxy pm' = pm_proxy pm
  ∧ pm_load pm' = pm_load pm
  ∧ rt_NotFound (pm_router pm') = rt_NotFound (pm_router pm)
  ∧ rt_MethodNotAllowed (pm_router pm') = rt_MethodNotAllowed (pm_router pm)
  ∧ rt_PanicHandler (pm_router pm') = rt_PanicHandler (pm_router pm).

(** The goroutines of [run] and [cancel] go together: a stopped monitor has
    no goroutine, a running one has exactly one. *)
Definition one_loop (h : health.HealthCheck) : Prop :=
  match health.cancel h with
  | None => health.loops h = []
  | Some _ => length (health.loops h) = 1%nat
  end.

(** A history in which the probe is not replaced. *)
Definition no_SetCheckFunc (a : health.Action) : Prop :=
  match a with
  | health.ASetCheckFunc _ _ => False
  | _ => True
  end.

(* ===================================================================== *)
(** * Part II. Properties                                                 *)
(* ===================================================================== *)

(** ** Method specs *)

Lemma Count_app (s t : string) (sep : ascii) :
  strings.Count (s +:+ t) sep = (strings.Count s sep + strings.Count t sep)%nat.
Proof.
  induction s as [|c s IH]; simpl; [done|].
  destruct (Ascii.eqb c sep); simpl; by rewrite IH.
Qed.

Lemma cutAt_free (s : string) (sep : ascii) :
  strings.free_of sep s → strings.cutAt s sep = None.
Proof.
  unfold strings.free_of. induction s as [|c s IH]; simpl; [done|].
  destruct (Ascii.eqb c sep); [done|]. intros Hs. by rewrite IH.
Qed.

Lemma cutAt_first (s t : string) (sep : ascii) :
  strings.free_of sep s →
  strings.cutAt (s +:+ String sep t) sep = Some (s, t).
Proof.
  unfold strings.free_of. induction s as [|c s IH]; simpl.
  - by rewrite Ascii.eqb_refl.
  - destruct (Ascii.eqb c sep); [done|]. intros Hs. by rewrite IH.
Qed.

Lemma genSplit_Join (ts : list string) (sep : ascii) (n : nat) :
  ts ≠ [] →
  Forall (strings.free_of sep) ts →
  (strings.Count (strings.Join ts sep) sep ≤ n)%nat →
  strings.genSplit n (strings.Join ts sep) sep = ts.
Proof.
  revert n. induction ts as [|t ts IH]; intros n Hne Hfree Hn; [done|].
  apply Forall_cons in Hfree as [Ht Hts].
  destruct ts as [|t' ts].
  - simpl. destruct n; simpl; [done|]. by rewrite cutAt_free.
  - change (strings.Join (t :: t' :: ts) sep)
      with (t +:+ String sep (strings.Join (t' :: ts) sep)) in *.
    set (rest := strings.Join (t' :: ts) sep) in *.
    rewrite Count_app in Hn. cbn [strings.Count] in Hn.
    rewrite Ascii.eqb_refl in Hn. unfold strings.free_of in Ht.
    destruct n as [|n]; [lia|].
    cbn [strings.genSplit]. rewrite cutAt_first by done.
    f_equal. apply IH; [done|done|]. fold rest. lia.
Qed.

Lemma Split_Join (ts : list string) (sep : ascii) :
  ts ≠ [] →
  Forall (strings.free_of sep) ts →
  strings.Split (strings.Join ts sep) sep = ts.
Proof. intros. unfold strings.Split. by apply genSplit_Join. Qed.

(** C9. The expansion of a method spec: the wildcard gives the seven
    methods in the fixed order; a spec written as tokens joined by the
    separator gives the tokens in their order; one token without a
    separator gives the one-element list. (The wildcard is tested first, so
    the other two cases are those of a spec other than the wildcard.) *)
Theorem methodStringToSlice_expansion :
  methodStringToSlice "*"
    = ["GET"; "HEAD"; "OPTIONS"; "POST"; "PUT"; "PATCH"; "DELETE"]
  ∧ (∀ ts : list string,
       ts ≠ [] →
       Forall (strings.free_of "|"%char) ts →
       strings.Join ts "|"%char ≠ "*" →
       methodStringToSlice (strings.Join ts "|"%char) = ts)
  ∧ (∀ t : string,
       strings.free_of "|"%char t →
       t ≠ "*" →
       methodStringToSlice t = [t]).
Proof.
  split; [done|].
  assert (Hjoin : ∀ ts : list string,
             ts ≠ [] → Forall (strings.free_of "|"%char) ts →
             strings.Join ts "|"%char ≠ "*" →
             methodStringToSlice (strings.Join ts "|"%char) = ts).
  { intros ts Hne Hfree Hstar. unfold methodStringToSlice.
    destruct (String.eqb_spec (strings.Join ts "|"%char) "*") as [E|_]; [done|].
    by apply Split_Join. }
  split; [done|].
  intros t Ht Hstar. apply (Hjoin [t]); [done| |done].
  by apply Forall_singleton.
Qed.

Lemma methodStringToSlice_expansion_witness :
  methodStringToSlice "GET|POST|PUT" = ["GET"; "POST"; "PUT"]
  ∧ methodStringToSlice "HEAD" = ["HEAD"].
Proof.
  destruct methodStringToSlice_expansion as (_ & Hjoin & Hone).
  split.
  - apply (Hjoin ["GET"; "POST"; "PUT"]); [done| |done].
    repeat constructor.
  - apply (Hone "HEAD"); [reflexivity|done].
Defined.

(** ** Route setters *)

Lemma call_value_receiver_assign {A : Type} (upd : A → Route → Route)
    (st : Store) (a : nat) (x : Route) (arg : A) :
  st !! a = Some x →
  call_value_receiver (λ a' arg st, assign (upd arg) a' st) st a arg
  = Some (upd arg x, st).
Proof.
  intros Ha. unfold call_value_receiver, assign. rewrite Ha.
  assert (Hfresh : st !! fresh (dom st) = None)
    by (apply not_elem_of_dom, is_fresh).
  rewrite alter_insert_eq, lookup_insert_eq, delete_insert_id; done.
Qed.

(** C10. Each setter works on a copy: called on a variable of the caller,
    it returns the route with the one field replaced and every other field
    as it was, and the store, the caller's variable with it, is what it
    was. *)
Theorem Route_setters_copy (st : Store) (a : nat) (r : Route)
    (path : string) (header : Header) (modifier : option ResponseModifier) :
  st !! a = Some r →
  call_value_receiver SetRewritePath_body st a path
    = Some (mkRoute (Method r) (Path r) path (RequestHeader r) (ModifyResponse r),
            st)
  ∧ call_value_receiver SetRequestHeader_body st a header
    = Some (mkRoute (Method r) (Path r) (RewritePath r) header (ModifyResponse r),
            st)
  ∧ call_value_receiver SetModifyResponse_body st a modifier
    = Some (mkRoute (Method r) (Path r) (RewritePath r) (RequestHeader r) modifier,
            st)
  ∧ SetRewritePath r path
    = mkRoute (Method r) (Path r) path (RequestHeader r) (ModifyResponse r)
  ∧ SetRequestHeader r header
    = mkRoute (Method r) (Path r) (RewritePath r) header (ModifyResponse r)
  ∧ SetModifyResponse r modifier
    = mkRoute (Method r) (Path r) (RewritePath r) (RequestHeader r) modifier.
Proof.
  intros Ha. repeat split.
  - apply (call_value_receiver_assign
             (λ path r, mkRoute (Method r) (Path r) path (RequestHeader r)
                                (ModifyResponse r)) st a r path Ha).
  - apply (call_value_receiver_assign
             (λ header r, mkRoute (Method r) (Path r) (RewritePath r) header
                                  (ModifyResponse r)) st a r header Ha).
  - apply (call_value_receiver_assign
             (λ modifier r, mkRoute (Method r) (Path r) (RewritePath r)
                                    (RequestHeader r) modifier) st a r modifier Ha).
Qed.

Lemma Route_setters_copy_witness :
  let r := NewRoute "GET" "/test" in
  let st : Store := {[ 7%nat := r ]} in
  call_value_receiver SetRewritePath_body st 7%nat "/new-path"
    = Some (mkRoute ["GET"] "/test" "/new-path" ∅ None, st).
Proof.
  intros r st.
  destruct (Route_setters_copy st 7%nat r "/new-path" ∅ None) as (Hpath & _).
  - reflexivity.
  - exact Hpath.
Defined.

(** ** Header merges *)

Lemma ranges_NoDup (header : Header) visit : ranges header visit → NoDup visit.*1.
Proof.
  unfold ranges. intros ->. apply NoDup_fst_map_to_list.
Qed.

Lemma ranges_elem (header : Header) visit k v :
  ranges header visit → (k, v) ∈ visit ↔ header !! k = Some v.
Proof.
  unfold ranges. intros ->. apply elem_of_map_to_list.
Qed.

Lemma ranges_map_to_list (headers : list Header) :
  Forall2 ranges headers (map_to_list <$> headers).
Proof.
  induction headers as [|a headers IH]; simpl;
    [apply List.Forall2_nil
    | apply List.Forall2_cons; [unfold ranges; reflexivity|exact IH]].
Qed.

Lemma assign_entries_union (l : list (string * list string)) (h : Header) :
  NoDup l.*1 → httputilx.assign_entries h l = list_to_map l ∪ h.
Proof.
  unfold httputilx.assign_entries.
  revert h. induction l as [|[k v] l IH]; intros h Hnd; simpl.
  - by rewrite (left_id_L ∅ (∪)).
  - apply NoDup_cons in Hnd as [Hk Hnd]. rewrite IH by done.
    rewrite <-insert_union_l. symmetry. apply insert_union_r.
    by apply not_elem_of_list_to_map_1.
Qed.

Lemma assign_entries_ranges (header h : Header) visit :
  ranges header visit → httputilx.assign_entries h visit = header ∪ h.
Proof.
  intros Hr. rewrite assign_entries_union by (by eapply ranges_NoDup).
  f_equal. unfold ranges in Hr.
  rewrite (list_to_map_proper _ (map_to_list header)).
  - apply list_to_map_to_list.
  - rewrite Hr. apply NoDup_fst_map_to_list.
  - done.
Qed.

Lemma assign_all_absent (headers : list Header) visits (h0 : Header) k :
  Forall2 ranges headers visits →
  Forall (λ header : Header, header !! k = None) headers →
  foldl httputilx.assign_entries h0 visits !! k = h0 !! k.
Proof.
  intros HF. revert h0. induction HF as [|header visit hs vs Hr _ IH];
    intros h0 Hall; [done|].
  apply Forall_cons in Hall as [Hk Hall]. simpl.
  rewrite IH by done. rewrite (assign_entries_ranges header) by done.
  by apply lookup_union_r.
Qed.

Lemma assign_all_last (headers : list Header) visits (h0 : Header) i Hi k vs :
  Forall2 ranges headers visits →
  headers !! i = Some Hi →
  Hi !! k = Some vs →
  (∀ j (Hj : Header), (i < j)%nat → headers !! j = Some Hj → Hj !! k = None) →
  foldl httputilx.assign_entries h0 visits !! k = Some vs.
Proof.
  intros HF. revert h0 i. induction HF as [|header visit hs vs' Hr HF IH];
    intros h0 i Hi_at Hk Hlater; [done|].
  simpl. rewrite (assign_entries_ranges header) by done.
  destruct i as [|i]; simpl in Hi_at.
  - injection Hi_at as ->.
    rewrite (assign_all_absent hs) by
      (first [done | apply Forall_lookup; intros j Hj Hj_at;
                     apply (Hlater (S j)); [lia|done]]).
    by apply lookup_union_Some_l.
  - apply (IH _ i); [done|done|].
    intros j Hj Hij Hj_at. apply (Hlater (S j)); [lia|done].
Qed.

Lemma MergeRequestHeaders_along_header (r : Request) visits :
  req_Header (httputilx.MergeRequestHeaders_along r visits)
  = foldl httputilx.assign_entries (req_Header r) visits.
Proof.
  unfold httputilx.MergeRequestHeaders_along.
  revert r. induction visits as [|v vs IH]; intros r; [done|].
  simpl. by rewrite IH.
Qed.

Lemma MergeRequestHeaders_along_frame (r : Request) visits :
  let r' := httputilx.MergeRequestHeaders_along r visits in
  req_Method r' = req_Method r ∧ req_URL r' = req_URL r ∧ req_Host r' = req_Host r.
Proof.
  unfold httputilx.MergeRequestHeaders_along.
  revert r. induction visits as [|v vs IH]; intros r; [done|].
  simpl. destruct (IH (mkRequest (req_Method r) (req_URL r) (req_Host r)
                         (httputilx.assign_entries (req_Header r) v)))
    as (? & ? & ?). done.
Qed.

Lemma MergeResponseHeaders_along_header (r : Response) visits :
  resp_Header (httputilx.MergeResponseHeaders_along r visits)
  = foldl httputilx.assign_entries (resp_Header r) visits.
Proof.
  unfold httputilx.MergeResponseHeaders_along.
  revert r. induction visits as [|v vs IH]; intros r; [done|].
  simpl. by rewrite IH.
Qed.

Lemma assign_all_order (headers : list Header) visits visits' (h0 : Header) :
  Forall2 ranges headers visits →
  Forall2 ranges headers visits' →
  foldl httputilx.assign_entries h0 visits
  = foldl httputilx.assign_entries h0 visits'.
Proof.
  intros HF. revert visits' h0.
  induction HF as [|header visit hs vs Hr _ IH]; intros visits' h0 HF'.
  - by inversion HF'.
  - inversion HF' as [|? visit' ? vs' Hr' HF'' ]; subst. simpl.
    rewrite !(assign_entries_ranges header) by done. by apply IH.
Qed.

(** The order in which [range] visits the sources' entries does not show in
    the merged request. *)
Lemma MergeRequestHeaders_along_order (r : Request) (headers : list Header) visits :
  Forall2 ranges headers visits →
  httputilx.MergeRequestHeaders_along r visits = httputilx.MergeRequestHeaders r headers.
Proof.
  intros HF. unfold httputilx.MergeRequestHeaders.
  pose proof (MergeRequestHeaders_along_frame r visits) as (Hm & Hu & Hh).
  pose proof (MergeRequestHeaders_along_frame r (map_to_list <$> headers))
    as (Hm' & Hu' & Hh').
  pose proof (MergeRequestHeaders_along_header r visits) as Hhd.
  pose proof (MergeRequestHeaders_along_header r (map_to_list <$> headers)) as Hhd'.
  rewrite (assign_all_order headers visits (map_to_list <$> headers)) in Hhd
    by (first [done | apply ranges_map_to_list]).
  destruct (httputilx.MergeRequestHeaders_along r visits),
           (httputilx.MergeRequestHeaders_along r (map_to_list <$> headers)).
  simpl in *. congruence.
Qed.

Section DispatchHeaders.
Context `{Externals}.

Lemma HandlePath_prepare_merge (pm : ReverseProxyMux) (route : Route) (r r' : Request) :
  HandlePath_prepare pm route r = (r', None) →
  ∃ r0, r' = httputilx.MergeRequestHeaders r0 [pm_RequestHeader pm; RequestHeader route].
Proof.
  unfold HandlePath_prepare.
  destruct (HandlePath_rewrite route (HandlePath_metadata pm r)) as [err|r4];
    [done|].
  intros [= <-]. by exists r4.
Qed.

(** C7. Sources merged into a request, or into a response, in order: a key
    keeps the whole value list of the last source that contains it, in
    whatever order the entries of each source are visited; and the handler
    of a route merges the dispatcher's headers, then the route's. *)
Theorem merge_headers_last_source_wins
    (headers : list Header) (visits : list (list (string * list string)))
    (i : nat) (Hi : Header) (k : string) (vs : list string) :
  Forall2 ranges headers visits →
  headers !! i = Some Hi →
  Hi !! k = Some vs →
  (∀ j (Hj : Header), (i < j)%nat → headers !! j = Some Hj → Hj !! k = None) →
  (∀ r : Request,
     req_Header (httputilx.MergeRequestHeaders_along r visits) !! k = Some vs)
  ∧ (∀ r : Response,
       resp_Header (httputilx.MergeResponseHeaders_along r visits) !! k = Some vs)
  ∧ (∀ (pm : ReverseProxyMux) (route : Route) (r r' : Request),
       HandlePath_prepare pm route r = (r', None) →
       ∃ r0, ∀ order,
         Forall2 ranges [pm_RequestHeader pm; RequestHeader route] order →
         r' = httputilx.MergeRequestHeaders_along r0 order).
Proof.
  intros HF Hi_at Hk Hlater. split; [|split].
  - intros r. rewrite MergeRequestHeaders_along_header.
    by eapply assign_all_last.
  - intros r. rewrite MergeResponseHeaders_along_header.
    by eapply assign_all_last.
  - intros pm route r r' Hprep.
    destruct (HandlePath_prepare_merge _ _ _ _ Hprep) as [r0 ->].
    exists r0. intros order Horder.
    symmetry. by apply MergeRequestHeaders_along_order.
Qed.

End DispatchHeaders.

Lemma merge_headers_last_source_wins_witness :
  let headers : list Header :=
    [ {["Content-Type" := ["application/json"]]};
      {["Content-Type" := ["text/plain"]]} ] in
  req_Header (httputilx.MergeRequestHeaders_along (examples.get "/posts")
                (map_to_list <$> headers))
    !! "Content-Type" = Some ["text/plain"].
Proof.
  intros headers.
  destruct (@merge_headers_last_source_wins reference.externals headers
              (map_to_list <$> headers) 1 {["Content-Type" := ["text/plain"]]}
              "Content-Type" ["text/plain"]) as (Hreq & _).
  - apply ranges_map_to_list.
  - reflexivity.
  - reflexivity.
  - intros j Hj Hij Hj_at. destruct j as [|[|j]]; [lia|lia|done].
  - exact (Hreq (examples.get "/posts")).
Defined.

Section WriterHeaders.
Context `{Externals}.

Lemma write_lines_other (h : Header) k i lines c :
  c ≠ CanonicalMIMEHeaderKey k →
  httputilx.write_lines h k i lines !! c = h !! c.
Proof.
  intros Hc. revert h i. induction lines as [|line rest IH]; intros h i; [done|].
  destruct i; simpl; rewrite IH; unfold Header_Set, Header_Add;
    by rewrite lookup_insert_ne.
Qed.

Lemma write_lines_add (h : Header) k i lines cur :
  h !! CanonicalMIMEHeaderKey k = Some cur →
  httputilx.write_lines h k (S i) lines !! CanonicalMIMEHeaderKey k
  = Some (cur ++ lines)%list.
Proof.
  revert h i cur. induction lines as [|line rest IH]; intros h i cur Hcur; simpl.
  - by rewrite app_nil_r.
  - rewrite (IH _ _ (cur ++ [line])%list).
    + by rewrite <-app_assoc.
    + unfold Header_Add. rewrite Hcur. simpl. by rewrite lookup_insert_eq.
Qed.

Lemma write_lines_first (h : Header) k v1 vs :
  httputilx.write_lines h k O (v1 :: vs) !! CanonicalMIMEHeaderKey k
  = Some (v1 :: vs).
Proof.
  simpl. rewrite (write_lines_add _ _ _ _ [v1]); [done|].
  unfold Header_Set. by rewrite lookup_insert_eq.
Qed.

Lemma write_lines_adds (h : Header) k i vs :
  httputilx.write_lines h k (S i) vs = foldl (λ acc v, Header_Add acc k v) h vs.
Proof.
  revert h i. induction vs as [|v vs IH]; intros h i; [done|].
  simpl. by rewrite IH.
Qed.

Lemma write_entries_other (h : Header) visit c :
  (∀ k ls, (k, ls) ∈ visit → CanonicalMIMEHeaderKey k ≠ c) →
  httputilx.write_entries h visit !! c = h !! c.
Proof.
  unfold httputilx.write_entries.
  revert h. induction visit as [|[k ls] visit IH]; intros h Hall; [done|].
  simpl. rewrite IH.
  - apply write_lines_other. intros ->. by apply (Hall k ls); [left|].
  - intros k' ls' Hin. apply (Hall k' ls'). by right.
Qed.

Lemma write_entries_app (h : Header) l1 l2 :
  httputilx.write_entries h (l1 ++ l2)
  = httputilx.write_entries (httputilx.write_entries h l1) l2.
Proof. apply foldl_app. Qed.

Lemma write_entries_cons (h : Header) k ls l :
  httputilx.write_entries h ((k, ls) :: l)
  = httputilx.write_entries (httputilx.write_lines h k O ls) l.
Proof. done. Qed.

Lemma write_entries_key (h : Header) visit k v1 vs :
  NoDup visit.*1 →
  (k, v1 :: vs) ∈ visit →
  (∀ k' ls, (k', ls) ∈ visit → k' ≠ k →
     CanonicalMIMEHeaderKey k' ≠ CanonicalMIMEHeaderKey k) →
  httputilx.write_entries h visit !! CanonicalMIMEHeaderKey k = Some (v1 :: vs).
Proof.
  intros Hnd Hin Halias.
  apply list_elem_of_split in Hin as (l1 & l2 & ->).
  rewrite fmap_app, fmap_cons in Hnd. simpl in Hnd.
  apply NoDup_app in Hnd as (_ & _ & Hnd2).
  apply NoDup_cons in Hnd2 as [Hk2 _].
  rewrite write_entries_app, write_entries_cons.
  rewrite write_entries_other.
  - apply write_lines_first.
  - intros k' ls' Hin'. apply (Halias k' ls').
    + apply elem_of_app. right. by right.
    + intros ->. apply Hk2. apply list_elem_of_fmap. by exists (k, ls').
Qed.

Lemma write_all_absent (headers : list Header) visits (h0 : Header) c :
  Forall2 ranges headers visits →
  Forall (λ header : Header,
            ∀ k', is_Some (header !! k') → CanonicalMIMEHeaderKey k' ≠ c) headers →
  foldl httputilx.write_entries h0 visits !! c = h0 !! c.
Proof.
  intros HF. revert h0. induction HF as [|header visit hs vs Hr _ IH];
    intros h0 Hall; [done|].
  apply Forall_cons in Hall as [Hk Hall]. simpl.
  rewrite IH by done. apply write_entries_other.
  intros k ls Hin. apply Hk. exists ls. by apply (ranges_elem header visit).
Qed.

Lemma write_all_last (headers : list Header) visits (h0 : Header) i Hi k v1 vs :
  Forall2 ranges headers visits →
  headers !! i = Some Hi →
  Hi !! k = Some (v1 :: vs) →
  (∀ k', k' ≠ k → is_Some (Hi !! k') →
     CanonicalMIMEHeaderKey k' ≠ CanonicalMIMEHeaderKey k) →
  (∀ j (Hj : Header) k', (i < j)%nat → headers !! j = Some Hj →
     is_Some (Hj !! k') →
     CanonicalMIMEHeaderKey k' ≠ CanonicalMIMEHeaderKey k) →
  foldl httputilx.write_entries h0 visits !! CanonicalMIMEHeaderKey k
  = Some (v1 :: vs).
Proof.
  intros HF. revert h0 i. induction HF as [|header visit hs vs' Hr HF IH];
    intros h0 i Hi_at Hk Halias Hlater; [done|].
  simpl. destruct i as [|i]; simpl in Hi_at.
  - injection Hi_at as ->.
    rewrite (write_all_absent hs).
    + apply write_entries_key.
      * by eapply ranges_NoDup.
      * by apply (ranges_elem Hi visit).
      * intros k' ls Hin Hne. apply Halias; [done|].
        exists ls. by apply (ranges_elem Hi visit).
    + done.
    + apply Forall_lookup. intros j Hj Hj_at k' Hsome.
      apply (Hlater (S j) Hj); [lia|done|done].
  - apply (IH _ i); [done|done|done|].
    intros j Hj k' Hij Hj_at. apply (Hlater (S j)); [lia|done].
Qed.

Lemma MergeResponseWriterHeaders_along_header (w : ResponseWriter) visits :
  w_Header (httputilx.MergeResponseWriterHeaders_along w visits)
  = foldl httputilx.write_entries (w_Header w) visits.
Proof.
  unfold httputilx.MergeResponseWriterHeaders_along.
  revert w. induction visits as [|v vs IH]; intros w; [done|].
  simpl. by rewrite IH.
Qed.

(** C8. Sources merged into a response writer: the lines of a key go to the
    writer's header with [Set] for the first and [Add] for each of the
    others, so after all the sources the writer has, for the key, exactly
    the lines of the last source that contains it. [Set] and [Add] store
    under the canonical form of the key, so "contains the key" is read up to
    that form: no later source has a key of the same canonical form, and in
    the source itself no other key has it. *)
Theorem merge_writer_headers_set_then_add
    (headers : list Header) (visits : list (list (string * list string)))
    (i : nat) (Hi : Header) (k v1 : string) (vs : list string) :
  Forall2 ranges headers visits →
  headers !! i = Some Hi →
  Hi !! k = Some (v1 :: vs) →
  (∀ k', k' ≠ k → is_Some (Hi !! k') →
     CanonicalMIMEHeaderKey k' ≠ CanonicalMIMEHeaderKey k) →
  (∀ j (Hj : Header) k', (i < j)%nat → headers !! j = Some Hj →
     is_Some (Hj !! k') →
     CanonicalMIMEHeaderKey k' ≠ CanonicalMIMEHeaderKey k) →
  (∀ h : Header,
     httputilx.write_lines h k O (v1 :: vs)
     = foldl (λ acc v, Header_Add acc k v) (Header_Set h k v1) vs)
  ∧ (∀ w : ResponseWriter,
       Header_Values
         (w_Header (httputilx.MergeResponseWriterHeaders_along w visits)) k
       = v1 :: vs).
Proof.
  intros HF Hi_at Hk Halias Hlater. split.
  - intros h. simpl. apply write_lines_adds.
  - intros w. unfold Header_Values.
    rewrite MergeResponseWriterHeaders_along_header.
    by rewrite (write_all_last headers visits _ i Hi k v1 vs).
Qed.

End WriterHeaders.

Lemma merge_writer_headers_set_then_add_witness :
  let headers : list Header :=
    [ {["Content-Type" := ["application/json"]]};
      {["Content-Type" := ["text/plain"; "charset=utf-8"]]} ] in
  @Header_Values reference.externals
    (w_Header (@httputilx.MergeResponseWriterHeaders_along reference.externals
                 examples.w0 (map_to_list <$> headers)))
    "Content-Type"
  = ["text/plain"; "charset=utf-8"].
Proof.
  intros headers.
  destruct (@merge_writer_headers_set_then_add reference.externals headers
              (map_to_list <$> headers) 1
              {["Content-Type" := ["text/plain"; "charset=utf-8"]]}
              "Content-Type" "text/plain" ["charset=utf-8"]) as (_ & Hw).
  - apply ranges_map_to_list.
  - reflexivity.
  - reflexivity.
  - intros k' Hne [ls Hls]. apply lookup_singleton_Some in Hls as [Hk' _].
    congruence.
  - intros j Hj k' Hij Hj_at. destruct j as [|[|j]]; [lia|lia|done].
  - exact (Hw examples.w0).
Defined.

(** ** Health monitor *)

Section HealthMonitor.
Context `{Externals}.

Lemma stop_nil (h : health.HealthCheck) :
  health.cancel h = None → health.stop h = health.Done h.
Proof. unfold health.stop. by intros ->. Qed.

Lemma stop_Done (h h' : health.HealthCheck) :
  health.stop h = health.Done h' →
  health.cancel h' = None
  ∧ health.origin h' = health.origin h
  ∧ health.now h' = health.now h
  ∧ health.isAvailable h' = health.isAvailable h
  ∧ health.chan_next h' = health.chan_next h
  ∧ (∀ c, c ∈ health.chan_closed h' →
          c ∈ health.chan_closed h ∨ health.cancel h = Some c).
Proof.
  unfold health.stop. destruct (health.cancel h) as [c|] eqn:Hc.
  - destruct (decide (c ∈ health.chan_closed h)); [done|].
    destruct (health.receive (health.loops h)); [|done].
    intros [= <-]. simpl. repeat split; try done.
    intros c' [->%elem_of_singleton|Hc']%elem_of_union; [by right|by left].
  - intros [= <-]. rewrite Hc. repeat split; try done. by left.
Qed.

Lemma monitor_inv_New (o : URL) (t : World) :
  health.monitor_inv (health.NewHealthCheck o t).
Proof.
  split; simpl.
  - intros c [= <-]. split; [set_solver|lia].
  - set_solver.
Qed.

Lemma stop_no_Fault (h : health.HealthCheck) v :
  health.monitor_inv h → health.stop h ≠ health.Fault v.
Proof.
  intros [Hopen _]. unfold health.stop.
  destruct (health.cancel h) as [c|]; [|done].
  destruct (Hopen c eq_refl) as [Hc _].
  destruct (decide (c ∈ health.chan_closed h)); [done|].
  by destruct (health.receive (health.loops h)).
Qed.

Lemma monitor_inv_stop (h h' : health.HealthCheck) :
  health.monitor_inv h → health.stop h = health.Done h' → health.monitor_inv h'.
Proof.
  intros [Hopen Hbelow] Hstop.
  destruct (stop_Done _ _ Hstop) as (Hnil & _ & _ & _ & Hnext & Hclosed).
  split.
  - intros c Hc. congruence.
  - intros c Hc. rewrite Hnext.
    destruct (Hclosed c Hc) as [?|Hcc]; [by apply Hbelow|].
    by apply Hopen.
Qed.

Lemma monitor_inv_act (h h' : health.HealthCheck) (a : health.Action) :
  health.monitor_inv h → health.act h a = health.Done h' → health.monitor_inv h'.
Proof.
  intros Hinv. destruct a as [chk per| | |i|i]; simpl.
  - unfold health.SetCheckFunc.
    destruct (health.stop h) as [h1| |] eqn:Hstop; [|done|done].
    intros [= <-]. apply monitor_inv_stop in Hstop as [_ Hbelow]; [|done].
    split; simpl.
    + intros c [= <-]. split; [|lia].
      intros Hc. apply Hbelow in Hc. lia.
    + intros c Hc. apply Hbelow in Hc. lia.
  - by apply monitor_inv_stop.
  - by intros [= <-].
  - unfold health.tick. destruct (health.loops h !! i) as [[p []]|];
      by intros [= <-].
  - unfold health.checkHealth. destruct (health.loops h !! i) as [[p []]|];
      by intros [= <-].
Qed.

Lemma monitor_inv_acts (h h' : health.HealthCheck) (history : list health.Action) :
  health.monitor_inv h → health.acts h history = health.Done h' → health.monitor_inv h'.
Proof.
  revert h. induction history as [|a history IH]; intros h Hinv; simpl.
  - by intros [= <-].
  - destruct (health.act h a) as [h1| |] eqn:Hact; [|done|done].
    apply IH. by eapply monitor_inv_act.
Qed.

(** C6. [Stop] is idempotent. After any history of calls and goroutine
    steps on a monitor made by [NewHealthCheck], [Stop] does not panic, and
    when it has returned the monitor is stopped ([cancel] is nil); [Stop]
    on a stopped monitor returns and leaves the monitor, its channels and
    its goroutines exactly as they are: nothing is sent or closed again. *)
Theorem Stop_idempotent (o : URL) (t : World) (history : list health.Action)
    (h : health.HealthCheck) :
  health.acts (health.NewHealthCheck o t) history = health.Done h →
  (∀ v, health.Stop h ≠ health.Fault v)
  ∧ (health.cancel h = None → health.Stop h = health.Done h)
  ∧ (∀ h', health.Stop h = health.Done h' →
           health.cancel h' = None ∧ health.Stop h' = health.Done h').
Proof.
  intros Hacts.
  assert (Hinv : health.monitor_inv h)
    by (eapply monitor_inv_acts; [apply monitor_inv_New|done]).
  split; [|split].
  - intros v. by apply stop_no_Fault.
  - apply stop_nil.
  - intros h' Hstop. destruct (stop_Done _ _ Hstop) as (Hnil & _).
    split; [done|]. by apply stop_nil.
Qed.

(** C5. Right after [NewHealthCheck], [IsAvailable] is the answer of the
    default probe, run once at the instant of the construction; no tick of
    the loop is needed. [SetCheckFunc] on the new monitor returns; and
    whenever [SetCheckFunc] returns, [IsAvailable] is the answer of the new
    probe, run once at the instant of the call. *)
Theorem IsAvailable_after_probe (o : URL) (t : World) :
  (health.IsAvailable (health.NewHealthCheck o t) = health.defaultHealthCheckFunc o t
   ∧ health.now (health.NewHealthCheck o t) = S t)
  ∧ (∀ chk per, ∃ h',
       health.SetCheckFunc (health.NewHealthCheck o t) chk per = health.Done h')
  ∧ (∀ (h h' : health.HealthCheck) chk per,
       health.SetCheckFunc h chk per = health.Done h' →
       health.IsAvailable h' = chk (health.origin h) (health.now h)
       ∧ health.now h' = S (health.now h)
       ∧ health.check h' = chk ∧ health.period h' = per).
Proof.
  split; [done|]. split.
  - intros chk per. by eexists.
  - intros h h' chk per. unfold health.SetCheckFunc.
    destruct (health.stop h) as [h1| |] eqn:Hstop; [|done|done].
    destruct (stop_Done _ _ Hstop) as (_ & Ho & Hn & _).
    intros [= <-]. simpl. by rewrite Ho, Hn.
Qed.

End HealthMonitor.

Lemma Stop_idempotent_witness :
  let o := mkURL "http" "my-backend:8000" "" in
  ∃ h h',
    health.acts (@health.NewHealthCheck reference.externals o O)
      [health.ATick O; health.ACheckHealth O; health.AStop] = health.Done h
    ∧ health.Stop h = health.Done h'
    ∧ h' = h.
Proof.
  intros o. eexists. eexists. split; [reflexivity|].
  pose proof (@Stop_idempotent reference.externals o O
                [health.ATick O; health.ACheckHealth O; health.AStop] _ eq_refl)
    as (_ & Hnil & _).
  split; [apply Hnil; reflexivity|reflexivity].
Defined.

Lemma IsAvailable_after_probe_witness :
  let o := mkURL "http" "my-backend:8000" "" in
  let h := @health.NewHealthCheck reference.externals o O in
  ∃ h', health.SetCheckFunc h (λ _ _, false) 1000 = health.Done h'
        ∧ health.IsAvailable h = true
        ∧ health.IsAvailable h' = false.
Proof.
  intros o h.
  destruct (@IsAvailable_after_probe reference.externals o O)
    as ((Hnew & _) & _ & Hafter).
  eexists. split; [reflexivity|]. split; [exact Hnew|].
  eapply (Hafter h _ (λ _ _, false) 1000). reflexivity.
Defined.

(** ** The dispatcher: forwarding metadata *)

Section Forwarding.
Context `{Externals}.

Lemma Header_Values_Set (h : Header) k v :
  Header_Values (Header_Set h k v) k = [v].
Proof. unfold Header_Values, Header_Set. by rewrite lookup_insert_eq. Qed.

Lemma Header_Values_Set_other (h : Header) k' k v :
  CanonicalMIMEHeaderKey k' ≠ CanonicalMIMEHeaderKey k →
  Header_Values (Header_Set h k' v) k = Header_Values h k.
Proof. intros Hne. unfold Header_Values, Header_Set. by rewrite lookup_insert_ne. Qed.

Lemma MergeRequestHeaders_Host (r : Request) (headers : list Header) :
  req_Host (httputilx.MergeRequestHeaders r headers) = req_Host r.
Proof.
  unfold httputilx.MergeRequestHeaders.
  by destruct (MergeRequestHeaders_along_frame r (map_to_list <$> headers))
    as (_ & _ & ?).
Qed.

Lemma MergeRequestHeaders_absent (r : Request) (headers : list Header) k :
  Forall (λ header : Header, header !! k = None) headers →
  req_Header (httputilx.MergeRequestHeaders r headers) !! k = req_Header r !! k.
Proof.
  intros Hall. unfold httputilx.MergeRequestHeaders.
  rewrite MergeRequestHeaders_along_header.
  by apply (assign_all_absent headers); [apply ranges_map_to_list|].
Qed.

Lemma HandlePath_handler_forwards (pm : ReverseProxyMux) (route : Route)
    (w : ResponseWriter) (r r4 : Request) :
  HandlePath_rewrite route (HandlePath_metadata pm r) = inr r4 →
  HandlePath_handler pm route w r
  = let r' := HandlePath_merge pm route r4 in
    let '(w', res) := proxy_ServeHTTP pm w r' in (w', r', res).
Proof.
  intros Hrw. unfold HandlePath_handler, HandlePath_prepare. by rewrite Hrw.
Qed.

(** C4. A request that the router matches to a route goes to the route's
    handler. The handler first sets [X-Forwarded-Proto] to the scheme
    of the request's URL and [X-Forwarded-Host] to the request's host, and
    makes the remote's host the request's host. A route without a rewrite
    target goes on with that request; the request that reaches the transport
    side is the merge of the dispatcher's and the route's headers into it,
    which keeps the host, and keeps the two headers unless one of the merged
    sources carries the same key. (The two keys have different canonical
    forms, as net/textproto gives them.) *)
Theorem forwarding_metadata (pm : ReverseProxyMux) (route : Route) (r : Request) :
  CanonicalMIMEHeaderKey "X-Forwarded-Proto" ≠ CanonicalMIMEHeaderKey "X-Forwarded-Host" →
  let m := HandlePath_metadata pm r in
  (∀ w, router_lookup (pm_router pm) r = Some route →
        router_ServeHTTP pm w r = router_recv pm (HandlePath_handler pm route w r))
  ∧ HandlePath_prepare pm route r
    = match HandlePath_rewrite route m with
      | inl err => (m, Some err)
      | inr r4 => (HandlePath_merge pm route r4, None)
      end
  ∧ (Header_Values (req_Header m) "X-Forwarded-Proto" = [url_Scheme (req_URL r)]
     ∧ Header_Values (req_Header m) "X-Forwarded-Host" = [req_Host r]
     ∧ req_Host m = url_Host (pm_remote pm))
  ∧ (RewritePath route = "" → HandlePath_rewrite route m = inr m)
  ∧ (∀ (w : ResponseWriter) (r4 : Request),
       HandlePath_rewrite route m = inr r4 →
       let r' := HandlePath_merge pm route r4 in
       HandlePath_handler pm route w r
         = (let '(w', res) := proxy_ServeHTTP pm w r' in (w', r', res))
       ∧ req_Host r' = req_Host r4
       ∧ (∀ key,
            pm_RequestHeader pm !! CanonicalMIMEHeaderKey key = None →
            RequestHeader route !! CanonicalMIMEHeaderKey key = None →
            Header_Values (req_Header r') key = Header_Values (req_Header r4) key)).
Proof.
  intros Hkeys m. split; [|split; [done|split; [|split]]].
  - intros w Hroute. unfold router_ServeHTTP. by rewrite Hroute.
  - subst m. unfold HandlePath_metadata. simpl. split; [|split; [|done]].
    + rewrite Header_Values_Set_other by done. apply Header_Values_Set.
    + apply Header_Values_Set.
  - intros Hrw. unfold HandlePath_rewrite. by rewrite Hrw.
  - intros w r4 Hrw r'. split; [|split].
    + by apply HandlePath_handler_forwards.
    + apply MergeRequestHeaders_Host.
    + intros key Hg Hrt. unfold Header_Values. subst r'.
      unfold HandlePath_merge. rewrite MergeRequestHeaders_absent; [done|].
      by repeat constructor.
Qed.

End Forwarding.

Lemma forwarding_metadata_witness :
  let pm := (@HandlePath reference.externals examples.pm0
               (NewRoute "GET" "/posts")).1 in
  let m := @HandlePath_metadata reference.externals pm (examples.get "/posts") in
  @Header_Values reference.externals (req_Header m) "X-Forwarded-Host"
    = ["proxy.example"]
  ∧ req_Host m = "my-backend:8000".
Proof.
  intros pm m.
  destruct (@forwarding_metadata reference.externals pm (NewRoute "GET" "/posts")
              (examples.get "/posts")) as (_ & _ & (_ & Hhost & Hremote) & _).
  - vm_compute. discriminate.
  - split; [exact Hhost|exact Hremote].
Defined.

(** ** The dispatcher: the load counter *)

Lemma wrap32_small (z : Z) : - 2 ^ 31 ≤ z ≤ max_int32 → wrap32 z = z.
Proof.
  unfold wrap32, max_int32. intros Hz. rewrite Z.mod_small; lia.
Qed.

Lemma wrap32_add (x d : Z) : wrap32 (wrap32 x + d) = wrap32 (x + d).
Proof.
  unfold wrap32.
  replace ((x + 2 ^ 31) mod 2 ^ 32 - 2 ^ 31 + d + 2 ^ 31)
    with ((x + 2 ^ 31) mod 2 ^ 32 + d) by lia.
  rewrite Z.add_mod_idemp_l by lia.
  f_equal. f_equal. lia.
Qed.

Lemma count_insert (l : list (Request * ResponseWriter * Phase)) i x y :
  l !! i = Some x →
  (length (filter (λ e, in_flight e.2 = true) (<[i := y]> l))
   + (if in_flight x.2 then 1 else 0)
   = length (filter (λ e, in_flight e.2 = true) l)
     + (if in_flight y.2 then 1 else 0))%nat.
Proof.
  revert i. induction l as [|a l IH]; intros i Hi; [done|].
  destruct i as [|i]; simpl in *.
  - injection Hi as ->. rewrite !filter_cons.
    destruct (decide (in_flight y.2 = true)) as [Ey|Ey],
             (decide (in_flight x.2 = true)) as [Ex|Ex]; simpl.
    + rewrite Ex, Ey. lia.
    + apply not_true_is_false in Ex. rewrite Ex, Ey. lia.
    + apply not_true_is_false in Ey. rewrite Ex, Ey. lia.
    + apply not_true_is_false in Ex, Ey. rewrite Ex, Ey. lia.
  - specialize (IH i Hi). rewrite !filter_cons.
    destruct (decide (in_flight a.2 = true)); simpl; lia.
Qed.

Section LoadCounter.
Context `{Externals}.

Lemma ServeHTTP_configure_load (pm : ReverseProxyMux) :
  pm_load (ServeHTTP_configure pm) = pm_load pm.
Proof. unfold ServeHTTP_configure. by destruct (pm_ErrorHandler pm). Qed.

Lemma ServeHTTP_body_load (pm : ReverseProxyMux) w r :
  pm_load (ServeHTTP_body pm w r).1 = pm_load pm.
Proof. apply ServeHTTP_configure_load. Qed.

Lemma ServeHTTP_load (pm : ReverseProxyMux) w r :
  pm_load (ServeHTTP pm w r).1 = AddInt32 (AddInt32 (pm_load pm) 1) (-1).
Proof.
  unfold ServeHTTP.
  pose proof (ServeHTTP_body_load (ServeHTTP_enter pm) w r) as Hbody.
  destruct (ServeHTTP_body (ServeHTTP_enter pm) w r) as [pm' out].
  simpl in *. by rewrite Hbody.
Qed.

Lemma load_inv_step (s s' : Server) (i : nat) :
  load_inv s → server_step s i = Some s' →
  load_inv s' ∧ length (sv_requests s') = length (sv_requests s).
Proof.
  unfold load_inv, server_step, count_in_flight. intros Hinv.
  destruct (sv_requests s !! i) as [[[r w] ph]|] eqn:Hi; [|done].
  pose proof (λ y, count_insert (sv_requests s) i (r, w, ph) y Hi) as Hcount.
  destruct ph as [| |out|out].
  - intros [= <-]. simpl. rewrite length_insert. split; [|done].
    specialize (Hcount (r, w, Entered)). simpl in Hcount.
    unfold AddInt32. rewrite Hinv, wrap32_add. f_equal. lia.
  - pose proof (ServeHTTP_body_load (sv_mux s) w r) as Hbody.
    destruct (ServeHTTP_body (sv_mux s) w r) as [pm' [w' out]].
    intros [= <-]. simpl in *. rewrite length_insert. split; [|done].
    specialize (Hcount (r, w', Served out)). simpl in Hcount.
    rewrite Hbody, Hinv. f_equal. lia.
  - intros [= <-]. simpl. rewrite length_insert. split; [|done].
    specialize (Hcount (r, w, Finished out)). simpl in Hcount.
    unfold AddInt32. rewrite Hinv, wrap32_add. f_equal. lia.
  - done.
Qed.

Lemma load_inv_run (s : Server) (schedule : list nat) :
  load_inv s →
  load_inv (server_run s schedule)
  ∧ length (sv_requests (server_run s schedule)) = length (sv_requests s).
Proof.
  revert s. induction schedule as [|i rest IH]; intros s Hinv; [done|].
  simpl. destruct (server_step s i) as [s'|] eqn:Hstep; [|by apply IH].
  destruct (load_inv_step _ _ _ Hinv Hstep) as [Hinv' Hlen].
  destruct (IH s' Hinv') as [? ?]. split; [done|congruence].
Qed.

Lemma load_inv_start (pm : ReverseProxyMux) reqs :
  load_inv (server_start pm reqs)
  ∧ length (sv_requests (server_start pm reqs)) = length reqs.
Proof.
  unfold load_inv, server_start, count_in_flight. simpl.
  rewrite length_fmap. split; [|done].
  replace (filter (λ e : Request * ResponseWriter * Phase, in_flight e.2 = true)
             ((λ rw : Request * ResponseWriter, (rw.1, rw.2, Waiting)) <$> reqs))
    with (@nil (Request * ResponseWriter * Phase)); [done|].
  induction reqs as [|a reqs IH]; [done|].
  rewrite fmap_cons, filter_cons. simpl. done.
Qed.

Lemma count_completed (l : list (Request * ResponseWriter * Phase)) :
  Forall (λ e, completed e.2 = true) l →
  filter (λ e, in_flight e.2 = true) l = [].
Proof.
  induction 1 as [|[[r w] ph] l Hc _ IH]; [done|].
  rewrite filter_cons. destruct ph; simpl in *; try done.
Qed.

(** C3. [ServeHTTP] adds one to the counter on entry and takes one off in
    its deferred call, whether the body returns or panics. So in every run
    of a server on fewer than 2^31 requests (the counter is an [int32]),
    however the requests' steps interleave, [GetLoad] is the number of
    requests in flight, it is not negative, and it is 0 once all requests
    have completed. *)
Theorem load_counts_requests_in_flight (pm : ReverseProxyMux)
    (reqs : list (Request * ResponseWriter)) (schedule : list nat) :
  Z.of_nat (length reqs) ≤ max_int32 →
  let s := server_run (server_start pm reqs) schedule in
  (∀ pm1 w r,
     ServeHTTP pm1 w r
       = (ServeHTTP_exit (ServeHTTP_body (ServeHTTP_enter pm1) w r).1,
          (ServeHTTP_body (ServeHTTP_enter pm1) w r).2)
     ∧ pm_load (ServeHTTP_enter pm1) = AddInt32 (pm_load pm1) 1
     ∧ pm_load (ServeHTTP_body (ServeHTTP_enter pm1) w r).1
       = pm_load (ServeHTTP_enter pm1)
     ∧ pm_load (ServeHTTP pm1 w r).1 = wrap32 (pm_load pm1))
  ∧ GetLoad (sv_mux s) = Z.of_nat (count_in_flight s)
  ∧ 0 ≤ GetLoad (sv_mux s)
  ∧ (Forall (λ e, completed e.2 = true) (sv_requests s) → GetLoad (sv_mux s) = 0).
Proof.
  intros Hbound s.
  destruct (load_inv_start pm reqs) as [Hinv0 Hlen0].
  destruct (load_inv_run _ schedule Hinv0) as [Hinv Hlen]. fold s in Hinv, Hlen.
  assert (Hcount : (count_in_flight s ≤ length reqs)%nat).
  { unfold count_in_flight. rewrite <-Hlen0, <-Hlen. apply length_filter. }
  assert (Hload : GetLoad (sv_mux s) = Z.of_nat (count_in_flight s)).
  { unfold GetLoad. rewrite Hinv. apply wrap32_small. unfold max_int32 in *. lia. }
  split; [|split; [done|split]].
  - intros pm1 w r. split; [|split; [done|split]].
    + unfold ServeHTTP. by destruct (ServeHTTP_body (ServeHTTP_enter pm1) w r).
    + apply ServeHTTP_body_load.
    + rewrite ServeHTTP_load. unfold AddInt32. rewrite wrap32_add.
      f_equal. lia.
  - lia.
  - intros Hall. rewrite Hload. unfold count_in_flight.
    by rewrite count_completed.
Qed.

End LoadCounter.

Lemma load_counts_requests_in_flight_witness :
  let pm := (@HandlePath reference.externals examples.pm0
               (NewRoute "GET" "/posts")).1 in
  let reqs := [(examples.get "/posts", examples.w0);
               (examples.get "/posts", examples.w0);
               (examples.get "/nowhere", examples.w0)] in
  let s := @server_run reference.externals (server_start pm reqs)
             [0; 1; 2; 1; 1]%nat in
  GetLoad (sv_mux s) = Z.of_nat (count_in_flight s)
  ∧ count_in_flight s = 2%nat.
Proof.
  intros pm reqs s.
  destruct (@load_counts_requests_in_flight reference.externals pm reqs
              [0; 1; 2; 1; 1]%nat) as (_ & Hload & _).
  - vm_compute. discriminate.
  - split; [exact Hload|reflexivity].
Defined.

(** ** The dispatcher: errors *)

Section Errors.
Context `{Externals}.

Lemma ServeHTTP_outcome (pm : ReverseProxyMux) w r :
  (ServeHTTP pm w r).2
  = router_ServeHTTP (ServeHTTP_configure (ServeHTTP_enter pm)) w r.
Proof. done. Qed.

Lemma ServeHTTP_configure_frame (pm : ReverseProxyMux) :
  let pm' := ServeHTTP_configure (ServeHTTP_enter pm) in
  pm_ErrorHandler pm' = pm_ErrorHandler pm
  ∧ rt_handlers (pm_router pm') = rt_handlers (pm_router pm)
  ∧ pm_remote pm' = pm_remote pm
  ∧ pm_modifiers pm' = pm_modifiers pm
  ∧ pm_ModifyResponse pm' = pm_ModifyResponse pm
  ∧ rp_ModifyResponse (pm_proxy pm') = true.
Proof.
  unfold ServeHTTP_configure, ServeHTTP_enter. simpl.
  destruct (pm_ErrorHandler pm) eqn:E; simpl; by rewrite ?E.
Qed.

Lemma ServeHTTP_configure_handler (pm : ReverseProxyMux) handler :
  pm_ErrorHandler pm = Some handler →
  let pm' := ServeHTTP_configure (ServeHTTP_enter pm) in
  rp_ErrorHandler (pm_proxy pm') = Some handler
  ∧ rt_PanicHandler (pm_router pm') = true.
Proof.
  intros Hh. unfold ServeHTTP_configure, ServeHTTP_enter. simpl. by rewrite Hh.
Qed.

Lemma ServeHTTP_configure_no_handler (pm : ReverseProxyMux) :
  pm_ErrorHandler pm = None →
  let pm' := ServeHTTP_configure (ServeHTTP_enter pm) in
  rp_ErrorHandler (pm_proxy pm') = rp_ErrorHandler (pm_proxy pm)
  ∧ rt_PanicHandler (pm_router pm') = rt_PanicHandler (pm_router pm).
Proof.
  intros Hh. unfold ServeHTTP_configure, ServeHTTP_enter. simpl. by rewrite Hh.
Qed.

Lemma router_lookup_configure (pm : ReverseProxyMux) r :
  router_lookup (pm_router (ServeHTTP_configure (ServeHTTP_enter pm))) r
  = router_lookup (pm_router pm) r.
Proof.
  unfold router_lookup.
  by destruct (ServeHTTP_configure_frame pm) as (_ & -> & _).
Qed.

(** What the forwarding engine does with the prepared request, by the case
    of the transport and of the modifier chain. *)
Lemma proxy_ServeHTTP_transport_error (pm : ReverseProxyMux) w r err :
  proxy_transport (pm_proxy pm) (proxy_outgoing (pm_remote pm) r)
    = Returned (inr err) →
  proxy_ServeHTTP pm w r
  = proxy_getErrorHandler (pm_proxy pm) w (proxy_outgoing (pm_remote pm) r) err.
Proof. intros Ht. unfold proxy_ServeHTTP. by rewrite Ht. Qed.

Lemma proxy_ServeHTTP_modifier_error (pm : ReverseProxyMux) w r status header res' err :
  rp_ModifyResponse (pm_proxy pm) = true →
  proxy_transport (pm_proxy pm) (proxy_outgoing (pm_remote pm) r)
    = Returned (inl (status, header)) →
  ServeHTTP_ModifyResponse pm
    (mkResponse status header (proxy_outgoing (pm_remote pm) r))
    = Returned (res', Some err) →
  proxy_ServeHTTP pm w r
  = proxy_getErrorHandler (pm_proxy pm) w (proxy_outgoing (pm_remote pm) r) err.
Proof.
  intros Hm Ht Hchain. unfold proxy_ServeHTTP. by rewrite Ht, Hm, Hchain.
Qed.

(** C2, as the code has it. For a request that the router gives to a
    route's handler:
    - with an error handler configured, a failure to make the rewrite rule,
      a failure of the transport, a failure of the modifier chain and a
      panic of the handler each end the request in one call of the error
      handler, with that error (the panic value printed into an error), and
      what the error handler writes is the outcome;
    - with none configured (and none left in the forwarding engine), a
      failure of the transport or of the modifier chain is answered by the
      engine's default: status 502;
    - with none configured (and no panic handler left in the router), a
      panic of the handler is not recovered: it leaves [ServeHTTP]. *)
Theorem per_request_errors (pm : ReverseProxyMux) (w : ResponseWriter)
    (r : Request) (route : Route) :
  router_lookup (pm_router pm) r = Some route →
  let pm' := ServeHTTP_configure (ServeHTTP_enter pm) in
  let outreq := λ r', proxy_outgoing (pm_remote pm') r' in
  (∀ handler, pm_ErrorHandler pm = Some handler →
     (∀ r' err w1,
        HandlePath_prepare pm' route r = (r', Some err) →
        handler w r' err = (w1, Returned tt) →
        (ServeHTTP pm w r).2 = (w1, Returned tt))
     ∧ (∀ r' err w1,
          HandlePath_prepare pm' route r = (r', None) →
          proxy_transport (pm_proxy pm') (outreq r') = Returned (inr err) →
          handler w (outreq r') err = (w1, Returned tt) →
          (ServeHTTP pm w r).2 = (w1, Returned tt))
     ∧ (∀ r' status header res' err w1,
          HandlePath_prepare pm' route r = (r', None) →
          proxy_transport (pm_proxy pm') (outreq r')
            = Returned (inl (status, header)) →
          ServeHTTP_ModifyResponse pm' (mkResponse status header (outreq r'))
            = Returned (res', Some err) →
          handler w (outreq r') err = (w1, Returned tt) →
          (ServeHTTP pm w r).2 = (w1, Returned tt))
     ∧ (∀ w0 r0 val w1,
          HandlePath_handler pm' route w r = (w0, r0, Panicked val) →
          handler w0 r0 (Errorf_v val) = (w1, Returned tt) →
          (ServeHTTP pm w r).2 = (w1, Returned tt)))
  ∧ (pm_ErrorHandler pm = None → rp_ErrorHandler (pm_proxy pm) = None →
     (∀ r' err,
        HandlePath_prepare pm' route r = (r', None) →
        proxy_transport (pm_proxy pm') (outreq r') = Returned (inr err) →
        (ServeHTTP pm w r).2
        = (mkResponseWriter (w_Header w) (Some StatusBadGateway) (w_Body w),
           Returned tt))
     ∧ (∀ r' status header res' err,
          HandlePath_prepare pm' route r = (r', None) →
          proxy_transport (pm_proxy pm') (outreq r')
            = Returned (inl (status, header)) →
          ServeHTTP_ModifyResponse pm' (mkResponse status header (outreq r'))
            = Returned (res', Some err) →
          (ServeHTTP pm w r).2
          = (mkResponseWriter (w_Header w) (Some StatusBadGateway) (w_Body w),
             Returned tt)))
  ∧ (pm_ErrorHandler pm = None → rt_PanicHandler (pm_router pm) = false →
     ∀ w0 r0 val,
       HandlePath_handler pm' route w r = (w0, r0, Panicked val) →
       (ServeHTTP pm w r).2 = (w0, Panicked val)).
Proof.
  intros Hroute pm' outreq.
  pose proof (router_lookup_configure pm r) as Hlookup. fold pm' in Hlookup.
  rewrite Hroute in Hlookup.
  destruct (ServeHTTP_configure_frame pm) as (HEh & _ & _ & _ & _ & Hmod).
  fold pm' in HEh, Hmod.
  assert (Hout : (ServeHTTP pm w r).2
                 = router_recv pm' (HandlePath_handler pm' route w r)).
  { rewrite ServeHTTP_outcome. fold pm'. unfold router_ServeHTTP.
    by rewrite Hlookup. }
  split; [|split].
  - intros handler Hh.
    destruct (ServeHTTP_configure_handler pm handler Hh) as [Hrp Hrt].
    fold pm' in Hrp, Hrt.
    assert (Hget : proxy_getErrorHandler (pm_proxy pm') = handler)
      by (unfold proxy_getErrorHandler; by rewrite Hrp).
    split; [|split; [|split]].
    + intros r' err w1 Hprep Hcall. rewrite Hout.
      unfold HandlePath_handler. rewrite Hprep, HEh, Hh, Hcall. done.
    + intros r' err w1 Hprep Ht Hcall. rewrite Hout.
      unfold HandlePath_handler. rewrite Hprep.
      rewrite (proxy_ServeHTTP_transport_error pm' w r' err Ht), Hget.
      fold (outreq r'). by rewrite Hcall.
    + intros r' status header res' err w1 Hprep Ht Hchain Hcall. rewrite Hout.
      unfold HandlePath_handler. rewrite Hprep.
      rewrite (proxy_ServeHTTP_modifier_error pm' w r' status header res' err
                 Hmod Ht Hchain), Hget.
      fold (outreq r'). by rewrite Hcall.
    + intros w0 r0 val w1 Hpanic Hcall. rewrite Hout, Hpanic. simpl.
      rewrite Hrt. unfold ServeHTTP_PanicHandler. by rewrite HEh, Hh.
  - intros Hnone Hfresh.
    destruct (ServeHTTP_configure_no_handler pm Hnone) as [Hrp _].
    fold pm' in Hrp.
    assert (Hget : proxy_getErrorHandler (pm_proxy pm') = defaultErrorHandler)
      by (unfold proxy_getErrorHandler; by rewrite Hrp, Hfresh).
    split.
    + intros r' err Hprep Ht. rewrite Hout.
      unfold HandlePath_handler. rewrite Hprep.
      by rewrite (proxy_ServeHTTP_transport_error pm' w r' err Ht), Hget.
    + intros r' status header res' err Hprep Ht Hchain. rewrite Hout.
      unfold HandlePath_handler. rewrite Hprep.
      by rewrite (proxy_ServeHTTP_modifier_error pm' w r' status header res' err
                    Hmod Ht Hchain), Hget.
  - intros Hnone Hfresh w0 r0 val Hpanic.
    destruct (ServeHTTP_configure_no_handler pm Hnone) as [_ Hrt].
    fold pm' in Hrt.
    rewrite Hout, Hpanic. simpl. by rewrite Hrt, Hfresh.
Qed.

End Errors.

Lemma per_request_errors_witness :
  let pm := (@HandlePath reference.externals
               (examples.with_hooks examples.pm0 None (Some examples.report))
               examples.route_bad_rule).1 in
  (@ServeHTTP reference.externals pm examples.w0 (examples.get "/a(b")).2
  = (mkResponseWriter ∅ (Some 500) ["error parsing regexp: missing closing )"],
     Returned tt).
Proof.
  intros pm.
  destruct (@per_request_errors reference.externals pm examples.w0
              (examples.get "/a(b") examples.route_bad_rule) as (Hwith & _).
  - reflexivity.
  - destruct (Hwith examples.report eq_refl) as (Hrewrite & _).
    eapply Hrewrite; reflexivity.
Defined.

(** C2, as stated, fails: with no error handler configured, a panic in a
    route's handler does not become an error response. Here the modifier of
    [GET /boom] panics; the panic leaves [ServeHTTP] and nothing has been
    written to the client. *)
Lemma panic_without_error_handler :
  let pm := (@HandlePath reference.externals examples.pm0 examples.route_boom).1 in
  let out := (@ServeHTTP reference.externals pm examples.w0 (examples.get "/boom")).2 in
  pm_ErrorHandler pm = None
  ∧ out = (examples.w0, Panicked "boom")
  ∧ w_Status out.1 = None
  ∧ ¬ ∃ w', out = (w', Returned tt).
Proof.
  intros pm out.
  assert (Hout : out = (examples.w0, Panicked "boom")) by reflexivity.
  split; [reflexivity|]. split; [exact Hout|]. split; [by rewrite Hout|].
  intros [w' Hw']. rewrite Hout in Hw'. discriminate.
Qed.

(** ** The dispatcher: the response modifiers *)

Section Modifiers.
Context `{Externals}.

(** The key under which the closure of [ServeHTTP] looks a route's modifier
    up: method and URL path of the request that was sent out. *)
Lemma ServeHTTP_ModifyResponse_chain (pm : ReverseProxyMux) (res : Response) :
  (∀ global res1 err,
     pm_ModifyResponse pm = Some global →
     global res = Returned (res1, Some err) →
     ServeHTTP_ModifyResponse pm res = Returned (res1, Some err))
  ∧ (∀ global res1 modifier,
       pm_ModifyResponse pm = Some global →
       global res = Returned (res1, None) →
       pm_modifiers pm !! req_Method (resp_Request res1)
         ≫= (λ byPath, byPath !! url_Path (req_URL (resp_Request res1)))
         = Some modifier →
       ServeHTTP_ModifyResponse pm res = modifier res1)
  ∧ (∀ global res1,
       pm_ModifyResponse pm = Some global →
       global res = Returned (res1, None) →
       pm_modifiers pm !! req_Method (resp_Request res1)
         ≫= (λ byPath, byPath !! url_Path (req_URL (resp_Request res1)))
         = None →
       ServeHTTP_ModifyResponse pm res = Returned (res1, None)).
Proof.
  unfold ServeHTTP_ModifyResponse. cbv zeta. split; [|split].
  - intros global res1 err -> Hg. by rewrite Hg.
  - intros global res1 modifier -> Hg Hm. rewrite Hg. cbv beta.
    match goal with
    | |- match ?x with _ => _ end = _ =>
        replace x with (Some modifier) by (symmetry; exact Hm)
    end.
    by destruct (modifier res1) as [[? [?|]]|].
  - intros global res1 -> Hg Hm. rewrite Hg. cbv beta.
    match goal with
    | |- match ?x with _ => _ end = _ =>
        replace x with (@None ResponseModifier) by (symmetry; exact Hm)
    end.
    done.
Qed.

(** [HandlePath] files a route's modifier under the route's path. *)
Lemma HandlePath_files_modifier (pm : ReverseProxyMux) (route : Route)
    (method : string) (modifier : ResponseModifier) :
  ModifyResponse route = Some modifier →
  router_accepts method (patterns_of (rt_handlers (pm_router pm)) method)
                 (Path route) = true →
  pm_modifiers (HandlePath_range pm route [method]).1 !! method
    ≫= (λ byPath, byPath !! Path route) = Some modifier.
Proof.
  intros Hm Hacc. simpl. rewrite Hacc, Hm. simpl.
  rewrite lookup_insert_eq. simpl. by rewrite lookup_insert_eq.
Qed.

End Modifiers.

(** C1 on a rewritten route. The same route, [GET /posts] with a modifier
    of its own, is registered once as it is and once with the rewrite target
    [/api/posts]; the dispatcher also has a global modifier. In both
    dispatchers the route's modifier is filed under [GET], [/posts]. Served
    as it is, the response carries the marks of both modifiers. Served
    rewritten, the request goes out with the path [/api/posts], the look-up
    under that path finds nothing, and the route's modifier does not run:
    the response carries the global mark only. *)
Theorem route_modifier_lost_after_rewrite :
  let global := Some (examples.mark "X-Global") in
  let plain := (@HandlePath reference.externals
                  (examples.with_hooks examples.pm0 global None)
                  examples.route_plain).1 in
  let rewritten := (@HandlePath reference.externals
                      (examples.with_hooks examples.pm0 global None)
                      examples.route_rewritten).1 in
  let served (pm : ReverseProxyMux) :=
    (@ServeHTTP reference.externals pm examples.w0 (examples.get "/posts")).2 in
  (is_Some (pm_modifiers plain !! "GET" ≫= (λ byPath, byPath !! "/posts"))
   ∧ is_Some (pm_modifiers rewritten !! "GET" ≫= (λ byPath, byPath !! "/posts")))
  ∧ (served plain).2 = Returned tt
  ∧ w_Header (served plain).1 !! "X-Global" = Some ["seen"]
  ∧ w_Header (served plain).1 !! "X-Route" = Some ["seen"]
  ∧ (served rewritten).2 = Returned tt
  ∧ w_Header (served rewritten).1 !! "X-Global" = Some ["seen"]
  ∧ w_Header (served rewritten).1 !! "X-Route" = None
  ∧ url_Path (req_URL (reference.outgoing examples.remote
                         (@HandlePath_prepare reference.externals rewritten
                            examples.route_rewritten (examples.get "/posts")).1))
    = "/api/posts".
Proof.
  intros global plain rewritten served.
  split; [split; vm_compute; eauto|].
  repeat split; vm_compute; reflexivity.
Qed.

(* ===================================================================== *)
(** * Part III. Further properties of the code                            *)
(* ===================================================================== *)

(** ** route.go: method specs and builder chains *)

Lemma cutAt_Some (s pre post : string) (sep : ascii) :
  strings.cutAt s sep = Some (pre, post) →
  s = pre +:+ String sep post
  ∧ strings.free_of sep pre
  ∧ strings.Count s sep = S (strings.Count post sep).
Proof.
  unfold strings.free_of.
  revert pre. induction s as [|c s IH]; intros pre; simpl; [done|].
  destruct (Ascii.eqb_spec c sep) as [->|Hne].
  - intros [= <- <-]. done.
  - destruct (strings.cutAt s sep) as [[pre' post']|]; [|done].
    intros [= <- <-]. destruct (IH pre' eq_refl) as (-> & Hfree & Hcount).
    simpl. destruct (Ascii.eqb_spec c sep) as [->|_]; [done|]. done.
Qed.

Lemma cutAt_None (s : string) (sep : ascii) :
  strings.cutAt s sep = None → strings.free_of sep s.
Proof.
  unfold strings.free_of. induction s as [|c s IH]; simpl; [done|].
  destruct (Ascii.eqb c sep); [done|].
  destruct (strings.cutAt s sep) as [[? ?]|]; [done|]. auto.
Qed.

Lemma genSplit_nonempty (n : nat) (s : string) (sep : ascii) :
  strings.genSplit n s sep ≠ [].
Proof.
  destruct n; simpl; [done|]. by destruct (strings.cutAt s sep) as [[? ?]|].
Qed.

Lemma Join_cons (e : string) (rest : list string) (sep : ascii) :
  rest ≠ [] →
  strings.Join (e :: rest) sep = e +:+ String sep (strings.Join rest sep).
Proof. by destruct rest. Qed.

Lemma genSplit_Join_inv (n : nat) (s : string) (sep : ascii) :
  strings.Join (strings.genSplit n s sep) sep = s.
Proof.
  revert s. induction n as [|n IH]; intros s; simpl; [done|].
  destruct (strings.cutAt s sep) as [[pre post]|] eqn:Hcut; [|done].
  rewrite Join_cons by apply genSplit_nonempty.
  rewrite IH. by destruct (cutAt_Some _ _ _ _ Hcut) as (-> & _).
Qed.

Lemma genSplit_tokens (n : nat) (s : string) (sep : ascii) :
  (strings.Count s sep ≤ n)%nat →
  Forall (strings.free_of sep) (strings.genSplit n s sep)
  ∧ length (strings.genSplit n s sep) = S (strings.Count s sep).
Proof.
  revert s. induction n as [|n IH]; intros s Hn; simpl.
  - split; [|by f_equal; lia]. apply Forall_singleton. unfold strings.free_of. lia.
  - destruct (strings.cutAt s sep) as [[pre post]|] eqn:Hcut.
    + destruct (cutAt_Some _ _ _ _ Hcut) as (_ & Hfree & Hcount).
      destruct (IH post) as [Htok Hlen]; [lia|].
      split; [by constructor|]. simpl. by rewrite Hlen, Hcount.
    + apply cutAt_None in Hcut. split; [by apply Forall_singleton|].
      simpl. by rewrite Hcut.
Qed.

(** X1. The expansion of a method spec is never empty, and none of its
    methods contains the separator. (The empty spec gives one empty
    method.) *)
Theorem methodStringToSlice_tokens (methods : string) :
  methodStringToSlice methods ≠ []
  ∧ Forall (strings.free_of "|"%char) (methodStringToSlice methods)
  ∧ methodStringToSlice "" = [""].
Proof.
  unfold methodStringToSlice. split; [|split; [|done]].
  - destruct (String.eqb methods "*"); [done|]. apply genSplit_nonempty.
  - destruct (String.eqb methods "*").
    + repeat constructor.
    + by apply genSplit_tokens.
Qed.

(** X2. For a spec other than the wildcard, the expansion is a round trip:
    joining the methods with the separator gives the spec back, and there
    is one method more than there are separators in the spec (so a leading,
    trailing or doubled separator gives an empty method). *)
Theorem methodStringToSlice_round_trip (methods : string) :
  methods ≠ "*" →
  strings.Join (methodStringToSlice methods) "|"%char = methods
  ∧ length (methodStringToSlice methods) = S (strings.Count methods "|"%char).
Proof.
  intros Hne. unfold methodStringToSlice.
  destruct (String.eqb_spec methods "*") as [E|_]; [done|].
  split; [apply genSplit_Join_inv|]. by apply genSplit_tokens.
Qed.

Lemma methodStringToSlice_round_trip_witness :
  strings.Join (methodStringToSlice "GET||POST|") "|"%char = "GET||POST|"
  ∧ length (methodStringToSlice "GET||POST|") = 4%nat.
Proof.
  apply (methodStringToSlice_round_trip "GET||POST|"). discriminate.
Defined.

Lemma setter_chain_snoc (r : Route) (calls : list SetterCall) (c : SetterCall) :
  setter_chain r (calls ++ [c]) = call_setter (setter_chain r calls) c.
Proof. unfold setter_chain. by rewrite foldl_app. Qed.

(** X3. In a builder chain of setters on a route, each of the three fields
    ends with the argument of the last call of its setter, or with the
    route's own value when the chain has no such call; [Method] and [Path]
    are never changed. *)
Theorem setter_chain_last_wins (r : Route) (calls : list SetterCall) :
  Method (setter_chain r calls) = Method r
  ∧ Path (setter_chain r calls) = Path r
  ∧ RewritePath (setter_chain r calls)
    = default (RewritePath r) (last (rewrite_args calls))
  ∧ RequestHeader (setter_chain r calls)
    = default (RequestHeader r) (last (header_args calls))
  ∧ ModifyResponse (setter_chain r calls)
    = default (ModifyResponse r) (last (modifier_args calls)).
Proof.
  induction calls as [|c calls IH] using rev_ind; [done|].
  destruct IH as (Hm & Hp & Hrw & Hh & Hmod).
  rewrite setter_chain_snoc.
  unfold rewrite_args, header_args, modifier_args in *.
  rewrite !omap_app. destruct c; simpl;
    rewrite ?app_nil_r, ?last_snoc; simpl; done.
Qed.

(** ** httputil/header.go: more on the merges *)

Lemma assign_all_union (headers : list Header) visits (h0 : Header) :
  Forall2 ranges headers visits →
  foldl httputilx.assign_entries h0 visits
  = foldl (λ (acc : Header) (header : Header), header ∪ acc) h0 headers.
Proof.
  intros HF. revert h0. induction HF as [|header visit hs vs Hr _ IH];
    intros h0; [done|].
  simpl. rewrite (assign_entries_ranges header) by done. apply IH.
Qed.

Lemma union_all_split (headers : list Header) (h0 : Header) :
  foldl (λ (acc : Header) (header : Header), header ∪ acc) h0 headers
  = foldl (λ (acc : Header) (header : Header), header ∪ acc) ∅ headers ∪ h0.
Proof.
  revert h0. induction headers as [|header hs IH]; intros h0; simpl.
  - by rewrite (left_id_L ∅ (∪)).
  - rewrite (IH (header ∪ h0)), (IH (header ∪ ∅)).
    rewrite (right_id_L ∅ (∪)). by rewrite (assoc_L (∪)).
Qed.

Lemma union_all_lookup (headers : list Header) (h0 : Header) k :
  is_Some (foldl (λ (acc : Header) (header : Header), header ∪ acc) h0 headers !! k)
  ↔ is_Some (h0 !! k) ∨ ∃ header : Header, header ∈ headers ∧ is_Some (header !! k).
Proof.
  revert h0. induction headers as [|header hs IH]; intros h0; simpl.
  - split; [by left|]. intros [?|(? & Hin & _)]; [done|]. by apply elem_of_nil in Hin.
  - rewrite IH. rewrite lookup_union_is_Some. split.
    + intros [[?|?]|(x & Hin & Hx)].
      * right. exists header. split; [by left|done].
      * by left.
      * right. exists x. split; [by right|done].
    + intros [?|(x & [->|Hin]%elem_of_cons & Hx)].
      * left. by right.
      * left. by left.
      * right. by exists x.
Qed.

(** X4. [MergeRequestHeaders] and [MergeResponseHeaders] touch the header
    only: a request keeps its method, URL and host, a response its status
    and request. In whatever order the entries are visited, the header that
    results is the request's (response's) header overlaid by each source in
    turn, and its keys are those of the target and of the sources: no key is
    dropped and none is invented. *)
Theorem merge_headers_overlay (headers : list Header)
    (visits : list (list (string * list string))) :
  Forall2 ranges headers visits →
  (∀ r : Request,
     let r' := httputilx.MergeRequestHeaders_along r visits in
     req_Method r' = req_Method r ∧ req_URL r' = req_URL r
     ∧ req_Host r' = req_Host r
     ∧ req_Header r'
       = foldl (λ (acc : Header) (header : Header), header ∪ acc) (req_Header r) headers
     ∧ ∀ k, is_Some (req_Header r' !! k)
            ↔ is_Some (req_Header r !! k)
              ∨ ∃ header : Header, header ∈ headers ∧ is_Some (header !! k))
  ∧ (∀ r : Response,
       let r' := httputilx.MergeResponseHeaders_along r visits in
       resp_StatusCode r' = resp_StatusCode r ∧ resp_Request r' = resp_Request r
       ∧ resp_Header r'
         = foldl (λ (acc : Header) (header : Header), header ∪ acc) (resp_Header r) headers
       ∧ ∀ k, is_Some (resp_Header r' !! k)
              ↔ is_Some (resp_Header r !! k)
                ∨ ∃ header : Header, header ∈ headers ∧ is_Some (header !! k)).
Proof.
  intros HF. split.
  - intros r r'. subst r'.
    destruct (MergeRequestHeaders_along_frame r visits) as (Hm & Hu & Hh).
    rewrite MergeRequestHeaders_along_header, (assign_all_union headers) by done.
    repeat split; try done; by apply union_all_lookup.
  - intros r r'. subst r'.
    rewrite MergeResponseHeaders_along_header, (assign_all_union headers) by done.
    assert (Hframe : resp_StatusCode (httputilx.MergeResponseHeaders_along r visits)
                     = resp_StatusCode r
                     ∧ resp_Request (httputilx.MergeResponseHeaders_along r visits)
                       = resp_Request r).
    { unfold httputilx.MergeResponseHeaders_along. clear HF.
      revert r. induction visits as [|v vs IH]; intros r; [done|].
      simpl. destruct (IH (mkResponse (resp_StatusCode r)
                             (httputilx.assign_entries (resp_Header r) v)
                             (resp_Request r))) as [? ?]. done. }
    destruct Hframe. repeat split; try done; by apply union_all_lookup.
Qed.

Lemma merge_headers_overlay_witness :
  let headers : list Header :=
    [ {["Accept" := ["*/*"]]}; {["Authorization" := ["Bearer abc123"]]} ] in
  let r' := httputilx.MergeRequestHeaders_along (examples.get "/posts")
              (map_to_list <$> headers) in
  req_Host r' = "proxy.example".
Proof.
  intros headers r'.
  destruct (merge_headers_overlay headers (map_to_list <$> headers)) as (Hreq & _).
  - apply ranges_map_to_list.
  - destruct (Hreq (examples.get "/posts")) as (_ & _ & Hhost & _). exact Hhost.
Defined.

Lemma Request_eq (r1 r2 : Request) :
  req_Method r1 = req_Method r2 → req_URL r1 = req_URL r2 →
  req_Host r1 = req_Host r2 → req_Header r1 = req_Header r2 → r1 = r2.
Proof. destruct r1, r2. simpl. by intros -> -> -> ->. Qed.

Lemma MergeRequestHeaders_header (r : Request) (headers : list Header) :
  req_Header (httputilx.MergeRequestHeaders r headers)
  = foldl (λ (acc : Header) (header : Header), header ∪ acc) ∅ headers ∪ req_Header r.
Proof.
  unfold httputilx.MergeRequestHeaders.
  rewrite MergeRequestHeaders_along_header.
  rewrite (assign_all_union headers) by apply ranges_map_to_list.
  apply union_all_split.
Qed.

Lemma MergeRequestHeaders_frame (r : Request) (headers : list Header) :
  let r' := httputilx.MergeRequestHeaders r headers in
  req_Method r' = req_Method r ∧ req_URL r' = req_URL r ∧ req_Host r' = req_Host r.
Proof. apply MergeRequestHeaders_along_frame. Qed.

(** X5. Merging is idempotent and composes: merging the same sources a
    second time changes nothing, merging two lists of sources one after the
    other is merging their concatenation, and merging no source, or empty
    (nil) sources only, leaves the request as it is. *)
Theorem MergeRequestHeaders_compose (r : Request) (hs1 hs2 : list Header) (n : nat) :
  httputilx.MergeRequestHeaders (httputilx.MergeRequestHeaders r hs1) hs1
    = httputilx.MergeRequestHeaders r hs1
  ∧ httputilx.MergeRequestHeaders (httputilx.MergeRequestHeaders r hs1) hs2
    = httputilx.MergeRequestHeaders r (hs1 ++ hs2)
  ∧ httputilx.MergeRequestHeaders r (replicate n ∅) = r.
Proof.
  split; [|split].
  - destruct (MergeRequestHeaders_frame (httputilx.MergeRequestHeaders r hs1) hs1)
      as (Hm & Hu & Hh).
    apply Request_eq; try done.
    rewrite !MergeRequestHeaders_header.
    rewrite (assoc_L (∪)). f_equal. apply (idemp_L (∪)).
  - unfold httputilx.MergeRequestHeaders, httputilx.MergeRequestHeaders_along.
    by rewrite fmap_app, foldl_app.
  - destruct (MergeRequestHeaders_frame r (replicate n ∅)) as (Hm & Hu & Hh).
    apply Request_eq; try done.
    rewrite MergeRequestHeaders_header.
    replace (foldl (λ (acc : Header) (header : Header), header ∪ acc) ∅
               (replicate n ∅)) with (∅ : Header).
    + by rewrite (left_id_L ∅ (∪)).
    + clear. induction n as [|n IH]; [done|].
      simpl. by rewrite (left_id_L ∅ (∪)).
Qed.

Section WriterHeadersMore.
Context `{Externals}.

Lemma write_lines_same (h : Header) k i lines c :
  lines = [] ∨ c ≠ CanonicalMIMEHeaderKey k →
  httputilx.write_lines h k i lines !! c = h !! c.
Proof.
  intros [->|Hc]; [by destruct i|]. by apply write_lines_other.
Qed.

Lemma write_entries_same (h : Header) visit c :
  (∀ k v vs, (k, v :: vs) ∈ visit → CanonicalMIMEHeaderKey k ≠ c) →
  httputilx.write_entries h visit !! c = h !! c.
Proof.
  revert h. induction visit as [|[k ls] visit IH]; intros h Hall; [done|].
  rewrite write_entries_cons, IH.
  - apply write_lines_same. destruct ls as [|v vs]; [by left|right].
    intros ->. by apply (Hall k v vs); [left|].
  - intros k' v vs Hin. apply (Hall k' v vs). by right.
Qed.

Lemma write_all_same (headers : list Header) visits (h0 : Header) c :
  Forall2 ranges headers visits →
  (∀ (header : Header) k v vs,
     header ∈ headers → header !! k = Some (v :: vs) →
     CanonicalMIMEHeaderKey k ≠ c) →
  foldl httputilx.write_entries h0 visits !! c = h0 !! c.
Proof.
  intros HF. revert h0. induction HF as [|header visit hs vs' Hr _ IH];
    intros h0 Hall; [done|].
  simpl. rewrite IH.
  - apply write_entries_same. intros k v vs Hin.
    apply (Hall header k v vs); [by left|]. by apply (ranges_elem header visit).
  - intros header' k v vs Hin. apply Hall. by right.
Qed.

Lemma MergeResponseWriterHeaders_along_frame (w : ResponseWriter) visits :
  let w' := httputilx.MergeResponseWriterHeaders_along w visits in
  w_Status w' = w_Status w ∧ w_Body w' = w_Body w.
Proof.
  unfold httputilx.MergeResponseWriterHeaders_along.
  revert w. induction visits as [|v vs IH]; intros w; [done|].
  simpl. destruct (IH (mkResponseWriter (httputilx.write_entries (w_Header w) v)
                         (w_Status w) (w_Body w))) as [? ?]. done.
Qed.

Lemma ResponseWriter_eq (w1 w2 : ResponseWriter) :
  w_Header w1 = w_Header w2 → w_Status w1 = w_Status w2 →
  w_Body w1 = w_Body w2 → w1 = w2.
Proof. destruct w1, w2. simpl. by intros -> -> ->. Qed.

(** X6. [MergeResponseWriterHeaders] never writes the status or the body,
    and it leaves alone every header of the writer that no source names
    with at least one line (names are compared in canonical form). A key
    whose list of lines is empty takes part in neither [Set] nor [Add]: a
    merge of sources that hold empty lists only returns the writer as it
    was, so an empty list never clears a header. *)
Theorem merge_writer_headers_frame (headers : list Header)
    (visits : list (list (string * list string))) (w : ResponseWriter) :
  Forall2 ranges headers visits →
  let w' := httputilx.MergeResponseWriterHeaders_along w visits in
  w_Status w' = w_Status w
  ∧ w_Body w' = w_Body w
  ∧ (∀ c,
       (∀ (header : Header) k v vs,
          header ∈ headers → header !! k = Some (v :: vs) →
          CanonicalMIMEHeaderKey k ≠ c) →
       w_Header w' !! c = w_Header w !! c)
  ∧ ((∀ (header : Header) k ls,
        header ∈ headers → header !! k = Some ls → ls = []) →
     w' = w).
Proof.
  intros HF w'. subst w'.
  destruct (MergeResponseWriterHeaders_along_frame w visits) as [Hst Hbody].
  assert (Hsame : ∀ c,
            (∀ (header : Header) k v vs,
               header ∈ headers → header !! k = Some (v :: vs) →
               CanonicalMIMEHeaderKey k ≠ c) →
            w_Header (httputilx.MergeResponseWriterHeaders_along w visits) !! c
            = w_Header w !! c).
  { intros c Hc. rewrite MergeResponseWriterHeaders_along_header.
    by apply (write_all_same headers). }
  repeat split; try done.
  intros Hempty. apply ResponseWriter_eq; try done.
  apply map_eq. intros c. apply Hsame.
  intros header k v vs Hin Hk. by specialize (Hempty header k (v :: vs) Hin Hk).
Qed.

Lemma write_lines_dom (h : Header) k i lines c :
  is_Some (httputilx.write_lines h k i lines !! c)
  ↔ is_Some (h !! c) ∨ (lines ≠ [] ∧ CanonicalMIMEHeaderKey k = c).
Proof.
  revert h i. induction lines as [|line rest IH]; intros h i.
  - simpl. destruct i; (split; [by left|intros [?|[? _]]; done]).
  - assert (Hstep : ∀ h' : Header,
              (is_Some (h' !! c)
               ↔ is_Some (h !! c) ∨ CanonicalMIMEHeaderKey k = c) →
              is_Some (httputilx.write_lines h' k (S i) rest !! c)
              ↔ is_Some (h !! c) ∨ (line :: rest ≠ [] ∧ CanonicalMIMEHeaderKey k = c)).
    { intros h' Hh'. rewrite IH, Hh'.
      assert (line :: rest ≠ []) by done. tauto. }
    destruct i; simpl; apply Hstep; unfold Header_Set, Header_Add;
      rewrite lookup_insert_is_Some;
      destruct (decide (CanonicalMIMEHeaderKey k = c)); tauto.
Qed.

Lemma write_entries_dom (h : Header) visit c :
  is_Some (httputilx.write_entries h visit !! c)
  ↔ is_Some (h !! c)
    ∨ ∃ k v vs, (k, v :: vs) ∈ visit ∧ CanonicalMIMEHeaderKey k = c.
Proof.
  revert h. induction visit as [|[k ls] visit IH]; intros h.
  - split; [by left|]. intros [?|(? & ? & ? & Hin & _)]; [done|].
    by apply elem_of_nil in Hin.
  - rewrite write_entries_cons, IH, write_lines_dom. split.
    + intros [[?|[Hne <-]]|(k' & v & vs & Hin & Hk)].
      * by left.
      * right. destruct ls as [|v vs]; [done|]. exists k, v, vs. split; [by left|done].
      * right. exists k', v, vs. split; [by right|done].
    + intros [?|(k' & v & vs & [[= -> <-]|Hin]%elem_of_cons & Hk)].
      * left. by left.
      * left. right. done.
      * right. by exists k', v, vs.
Qed.

(** X7. The headers of the writer after [MergeResponseWriterHeaders] are
    those it had and, for each key that a source holds with at least one
    line, the canonical form of that key: the merge never stores under a
    key as the source spells it unless that is its canonical form, and it
    never removes a header. *)
Theorem merge_writer_headers_keys (headers : list Header)
    (visits : list (list (string * list string))) (w : ResponseWriter) (c : string) :
  Forall2 ranges headers visits →
  is_Some (w_Header (httputilx.MergeResponseWriterHeaders_along w visits) !! c)
  ↔ is_Some (w_Header w !! c)
    ∨ ∃ (header : Header) k v vs,
        header ∈ headers ∧ header !! k = Some (v :: vs)
        ∧ CanonicalMIMEHeaderKey k = c.
Proof.
  intros HF. rewrite MergeResponseWriterHeaders_along_header.
  generalize (w_Header w). clear w.
  induction HF as [|header visit hs vs' Hr _ IH]; intros h0.
  - split; [by left|]. intros [?|(? & ? & ? & ? & Hin & _)]; [done|].
    by apply elem_of_nil in Hin.
  - simpl. rewrite IH, write_entries_dom. split.
    + intros [[?|(k & v & vs & Hin & Hk)]|(x & k & v & vs & Hin & Hx & Hk)].
      * by left.
      * right. exists header, k, v, vs. split; [by left|].
        split; [|done]. by apply (ranges_elem header visit).
      * right. exists x, k, v, vs. split; [by right|done].
    + intros [?|(x & k & v & vs & [->|Hin]%elem_of_cons & Hx & Hk)].
      * left. by left.
      * left. right. exists k, v, vs. split; [|done].
        by apply (ranges_elem header visit).
      * right. by exists x, k, v, vs.
Qed.

End WriterHeadersMore.

Lemma merge_writer_headers_frame_witness :
  let headers : list Header := [ {["Content-Type" := []]} ] in
  @httputilx.MergeResponseWriterHeaders_along reference.externals
    examples.w0 (map_to_list <$> headers) = examples.w0.
Proof.
  intros headers.
  destruct (@merge_writer_headers_frame reference.externals headers
              (map_to_list <$> headers) examples.w0) as (_ & _ & _ & Hempty).
  - apply ranges_map_to_list.
  - apply Hempty. intros header k ls Hin Hk.
    apply list_elem_of_singleton in Hin as ->.
    apply lookup_singleton_Some in Hk as [_ <-]. done.
Defined.

Lemma merge_writer_headers_keys_witness :
  let headers : list Header := [ {["content-type" := ["text/plain"]]} ] in
  let w' := @httputilx.MergeResponseWriterHeaders_along reference.externals
              examples.w0 (map_to_list <$> headers) in
  is_Some (w_Header w' !! "Content-Type") ∧ ¬ is_Some (w_Header w' !! "content-type").
Proof.
  intros headers w'.
  pose proof (λ c, @merge_writer_headers_keys reference.externals headers
                     (map_to_list <$> headers) examples.w0 c
                     (ranges_map_to_list headers)) as Hkeys.
  split.
  - apply Hkeys. right. exists {["content-type" := ["text/plain"]]},
      "content-type", "text/plain", []. split; [by left|]. split; reflexivity.
  - intros Hsome. apply Hkeys in Hsome as [Hw0|(header & k & v & vs & Hin & Hk & Hc)].
    + by destruct Hw0.
    + apply list_elem_of_singleton in Hin as ->.
      apply lookup_singleton_Some in Hk as [<- _]. vm_compute in Hc. discriminate.
Defined.

(** ** health/healthcheck.go: the goroutine of the monitor *)

Section HealthMonitorMore.
Context `{Externals}.

Lemma receive_one (l : health.Loop) :
  health.receive [l]
  = match health.loop_status l with
    | health.Selecting => Some []
    | _ => None
    end.
Proof. simpl. by destruct (health.loop_status l). Qed.

Lemma one_loop_stop (h h' : health.HealthCheck) :
  one_loop h → health.stop h = health.Done h' →
  health.cancel h' = None ∧ health.loops h' = [].
Proof.
  unfold one_loop, health.stop.
  destruct (health.cancel h) as [c|] eqn:Hc.
  - intros Hlen. destruct (health.loops h) as [|l [|? ?]] eqn:Hl; try done.
    destruct (decide (c ∈ health.chan_closed h)); [done|].
    rewrite receive_one. destruct (health.loop_status l); [|done|done].
    by intros [= <-].
  - intros Hl [= <-]. by rewrite Hc.
Qed.

Lemma one_loop_act (h h' : health.HealthCheck) (a : health.Action) :
  one_loop h → health.act h a = health.Done h' →
  one_loop h' ∧ health.origin h' = health.origin h.
Proof.
  intros Hone. destruct a as [chk per| | |i|i]; simpl.
  - unfold health.SetCheckFunc.
    destruct (health.stop h) as [h1| |] eqn:Hstop; [|done|done].
    destruct (one_loop_stop _ _ Hone Hstop) as [_ Hl].
    destruct (stop_Done _ _ Hstop) as (_ & Ho & _).
    intros [= <-]. unfold one_loop. simpl. by rewrite Hl.
  - intros Hstop. destruct (one_loop_stop _ _ Hone Hstop) as [Hc Hl].
    destruct (stop_Done _ _ Hstop) as (_ & Ho & _).
    unfold one_loop. by rewrite Hc.
  - by intros [= <-].
  - unfold health.tick. destruct (health.loops h !! i) as [[p []]|] eqn:Hi;
      intros [= <-]; try done.
    unfold one_loop in *. simpl. destruct (health.cancel h).
    + by rewrite length_insert.
    + by rewrite Hone in Hi.
  - unfold health.checkHealth. destruct (health.loops h !! i) as [[p []]|] eqn:Hi;
      intros [= <-]; try done.
    unfold one_loop in *. simpl. destruct (health.cancel h).
    + by rewrite length_insert.
    + by rewrite Hone in Hi.
Qed.

Lemma one_loop_acts (h h' : health.HealthCheck) (history : list health.Action) :
  one_loop h → health.acts h history = health.Done h' →
  one_loop h' ∧ health.origin h' = health.origin h.
Proof.
  revert h. induction history as [|a history IH]; intros h Hone; simpl.
  - by intros [= <-].
  - destruct (health.act h a) as [h1| |] eqn:Hact; [|done|done].
    destruct (one_loop_act _ _ _ Hone Hact) as [Hone1 Ho1].
    intros Hrest. destruct (IH h1 Hone1 Hrest) as [? ?]. split; [done|congruence].
Qed.

(** X8. Whatever calls and goroutine steps a monitor made by
    [NewHealthCheck] has gone through, it still watches the origin it was
    made for, at most one goroutine of [run] exists, and there is none
    exactly when the monitor is stopped ([cancel] is nil): [SetCheckFunc]
    never leaves two probing loops behind and [Stop] leaves none. *)
Theorem one_probing_loop (o : URL) (t : World) (history : list health.Action)
    (h : health.HealthCheck) :
  health.acts (health.NewHealthCheck o t) history = health.Done h →
  health.origin h = o
  ∧ (length (health.loops h) ≤ 1)%nat
  ∧ (health.cancel h = None ↔ health.loops h = []).
Proof.
  intros Hacts.
  destruct (one_loop_acts (health.NewHealthCheck o t) h history) as [Hone Ho];
    [done|done|].
  split; [done|]. unfold one_loop in Hone.
  destruct (health.cancel h) as [c|].
  - split; [lia|]. split; [done|]. intros Hl. by rewrite Hl in Hone.
  - rewrite Hone. split; [simpl; lia|done].
Qed.

(** X9. When [Stop] returns and when it cannot. If the goroutine of the
    monitor is blocked in its [select], [Stop] returns and leaves no
    goroutine, and [IsAvailable] keeps its value. If the goroutine has
    taken the ticker case and is waiting in [checkHealth] for the mutex,
    [Stop], which holds the mutex while it sends on [cancel], blocks for
    ever, and so does [SetCheckFunc]. *)
Theorem Stop_returns_or_blocks (o : URL) (t : World) (history : list health.Action)
    (h : health.HealthCheck) (l : health.Loop) :
  health.acts (health.NewHealthCheck o t) history = health.Done h →
  health.loops h = [l] →
  (health.loop_status l = health.Selecting →
     ∃ h', health.Stop h = health.Done h'
           ∧ health.loops h' = [] ∧ health.cancel h' = None
           ∧ health.IsAvailable h' = health.IsAvailable h)
  ∧ (health.loop_status l = health.Checking →
       health.Stop h = health.Blocked
       ∧ ∀ chk per, health.SetCheckFunc h chk per = health.Blocked).
Proof.
  intros Hacts Hl.
  destruct (one_loop_acts (health.NewHealthCheck o t) h history) as [Hone _];
    [done|done|].
  assert (Hinv : health.monitor_inv h)
    by (eapply monitor_inv_acts; [apply monitor_inv_New|done]).
  unfold one_loop in Hone.
  destruct (health.cancel h) as [c|] eqn:Hc; [|by rewrite Hl in Hone].
  destruct Hinv as [Hopen _]. destruct (Hopen c Hc) as [Hnot _].
  assert (Hstop : health.stop h
                  = match health.loop_status l with
                    | health.Selecting =>
                        health.Done (health.mkHealthCheck (health.origin h)
                          (health.check h) (health.period h) None
                          (health.isAvailable h) (health.chan_next h)
                          ({[c]} ∪ health.chan_closed h) [] (health.now h))
                    | _ => health.Blocked
                    end).
  { unfold health.stop. rewrite Hc, Hl, receive_one.
    destruct (decide (c ∈ health.chan_closed h)); [done|].
    by destruct (health.loop_status l). }
  split.
  - intros Hsel. rewrite Hsel in Hstop. eexists. split; [exact Hstop|done].
  - intros Hchk. rewrite Hchk in Hstop. split; [exact Hstop|].
    intros chk per. unfold health.SetCheckFunc. by rewrite Hstop.
Qed.

Lemma stopped_act (h : health.HealthCheck) (a : health.Action) :
  health.cancel h = None → health.loops h = [] → no_SetCheckFunc a →
  health.act h a = health.Done h.
Proof.
  intros Hc Hl Ha. destruct a as [chk per| | |i|i]; simpl; try done.
  - by apply stop_nil.
  - unfold health.tick. by rewrite Hl.
  - unfold health.checkHealth. by rewrite Hl.
Qed.

(** X10. A stopped monitor is inert. Once [Stop] has returned, no call of
    [Stop] or [IsAvailable] and no step of a goroutine changes anything:
    [IsAvailable] keeps answering with the last value stored before the
    stop, until [SetCheckFunc] is called. *)
Theorem stopped_monitor_is_inert (o : URL) (t : World)
    (before after : list health.Action) (h h' : health.HealthCheck) :
  health.acts (health.NewHealthCheck o t) before = health.Done h →
  health.Stop h = health.Done h' →
  Forall no_SetCheckFunc after →
  health.acts h' after = health.Done h'
  ∧ health.IsAvailable h' = health.IsAvailable h.
Proof.
  intros Hacts Hstop Hafter.
  destruct (one_loop_acts (health.NewHealthCheck o t) h before) as [Hone _];
    [done|done|].
  destruct (one_loop_stop _ _ Hone Hstop) as [Hc Hl].
  destruct (stop_Done _ _ Hstop) as (_ & _ & _ & Hav & _).
  split; [|done].
  induction Hafter as [|a rest Ha _ IH]; [done|].
  simpl. by rewrite stopped_act.
Qed.

Lemma tick_then_check (h : health.HealthCheck) (p : Z) :
  health.loops h = [health.mkLoop p health.Selecting] →
  ∃ h2, health.acts h [health.ATick O; health.ACheckHealth O] = health.Done h2
        ∧ health.IsAvailable h2 = health.check h (health.origin h) (health.now h)
        ∧ health.loops h2 = health.loops h
        ∧ health.check h2 = health.check h
        ∧ health.now h2 = S (health.now h).
Proof.
  intros Hl. simpl. unfold health.tick. rewrite Hl. simpl.
  unfold health.checkHealth. simpl. eexists. split; [done|]. done.
Qed.

(** X11. The periodic check runs the probe that is current. After
    [NewHealthCheck], a tick of the loop stores the answer of the default
    probe at that instant; after [SetCheckFunc] with a positive period has
    returned, the one loop that exists has the new period, and its next tick
    stores the answer of the new probe, not of the one it replaced. *)
Theorem periodic_check_runs_current_probe (o : URL) (t : World)
    (history : list health.Action) (h h1 : health.HealthCheck)
    (chk : health.Probe) (per : Z) :
  health.acts (health.NewHealthCheck o t) history = health.Done h →
  health.SetCheckFunc h chk per = health.Done h1 →
  0 < per →
  (∃ h0, health.acts (health.NewHealthCheck o t)
           [health.ATick O; health.ACheckHealth O] = health.Done h0
         ∧ health.IsAvailable h0 = health.defaultHealthCheckFunc o (S t))
  ∧ health.loops h1 = [health.mkLoop per health.Selecting]
  ∧ ∃ h2, health.acts h1 [health.ATick O; health.ACheckHealth O] = health.Done h2
          ∧ health.IsAvailable h2 = chk o (S (health.now h)).
Proof.
  intros Hacts Hset Hper.
  destruct (one_loop_acts (health.NewHealthCheck o t) h history) as [Hone Ho];
    [done|done|].
  simpl in Ho. split.
  - destruct (tick_then_check (health.NewHealthCheck o t)
                health.defaultHealthCheckPeriod eq_refl) as (h0 & Hh0 & Hav & _).
    exists h0. split; [done|]. by rewrite Hav.
  - unfold health.SetCheckFunc in Hset.
    destruct (health.stop h) as [hs| |] eqn:Hstop; [|done|done].
    destruct (one_loop_stop _ _ Hone Hstop) as [_ Hl].
    destruct (stop_Done _ _ Hstop) as (_ & Hos & Hns & _).
    injection Hset as <-.
    assert (Hloops : health.loops
                       (health.run (health.mkHealthCheck (health.origin hs) chk per
                          (Some (health.chan_next hs))
                          (chk (health.origin hs) (health.now hs))
                          (S (health.chan_next hs)) (health.chan_closed hs)
                          (health.loops hs) (S (health.now hs))))
                     = [health.mkLoop per health.Selecting]).
    { simpl. rewrite Hl. simpl. destruct (Z.ltb_spec 0 per); [done|lia]. }
    split; [done|].
    destruct (tick_then_check _ per Hloops) as (h2 & Hh2 & Hav & _).
    exists h2. split; [done|]. rewrite Hav. simpl. by rewrite Hos, Hns, Ho.
Qed.

End HealthMonitorMore.

Lemma Stop_returns_or_blocks_witness :
  let o := mkURL "http" "my-backend:8000" "" in
  ∃ h, health.acts (@health.NewHealthCheck reference.externals o O)
         [health.ATick O] = health.Done h
       ∧ health.Stop h = health.Blocked.
Proof.
  intros o. eexists. split; [reflexivity|].
  destruct (@Stop_returns_or_blocks reference.externals o O [health.ATick O] _
              (health.mkLoop health.defaultHealthCheckPeriod health.Checking)
              eq_refl eq_refl) as (_ & Hblocked).
  destruct (Hblocked eq_refl) as [Hstop _]. exact Hstop.
Defined.

Lemma stopped_monitor_is_inert_witness :
  let o := mkURL "http" "my-backend:8000" "" in
  ∃ h', health.Stop (@health.NewHealthCheck reference.externals o O) = health.Done h'
        ∧ health.acts h' [health.ATick O; health.AStop; health.ACheckHealth O]
          = health.Done h'.
Proof.
  intros o. eexists. split; [reflexivity|].
  destruct (@stopped_monitor_is_inert reference.externals o O []
              [health.ATick O; health.AStop; health.ACheckHealth O]
              (@health.NewHealthCheck reference.externals o O) _
              eq_refl eq_refl) as [Hinert _].
  - repeat constructor.
  - exact Hinert.
Defined.

Lemma periodic_check_runs_current_probe_witness :
  let o := mkURL "http" "my-backend:8000" "" in
  ∃ h1 h2,
    health.SetCheckFunc (@health.NewHealthCheck reference.externals o O)
      (λ _ _, false) 1000 = health.Done h1
    ∧ health.acts h1 [health.ATick O; health.ACheckHealth O] = health.Done h2
    ∧ health.IsAvailable h2 = false.
Proof.
  intros o.
  destruct (@periodic_check_runs_current_probe reference.externals o O []
              (@health.NewHealthCheck reference.externals o O) _
              (λ _ _, false) 1000 eq_refl eq_refl) as (_ & _ & h2 & Hh2 & Hav).
  - lia.
  - eexists. exists h2. split; [reflexivity|]. split; [exact Hh2|exact Hav].
Defined.

Lemma one_probing_loop_witness :
  let o := mkURL "http" "my-backend:8000" "" in
  ∃ h, health.acts (@health.NewHealthCheck reference.externals o O)
         [health.ASetCheckFunc (λ _ _, true) 5; health.ASetCheckFunc (λ _ _, false) 7]
       = health.Done h
       ∧ (length (health.loops h) ≤ 1)%nat.
Proof.
  intros o. eexists. split; [reflexivity|].
  destruct (@one_probing_loop reference.externals o O
              [health.ASetCheckFunc (λ _ _, true) 5;
               health.ASetCheckFunc (λ _ _, false) 7] _ eq_refl) as (_ & Hlen & _).
  exact Hlen.
Defined.

(** ** The dispatcher: registration *)

Lemma modifier_at_insert (ms : ResponseModifierMap) m p x m' p' :
  modifier_at (<[m := <[p := x]> (default ∅ (ms !! m))]> ms) m' p'
  = if decide (m' = m ∧ p' = p) then Some x else modifier_at ms m' p'.
Proof.
  unfold modifier_at. destruct (decide (m' = m)) as [->|Hm].
  - rewrite lookup_insert_eq. simpl. destruct (decide (p' = p)) as [->|Hp].
    + rewrite lookup_insert_eq. by rewrite decide_True.
    + rewrite lookup_insert_ne by done.
      rewrite decide_False by (by intros [_ ?]).
      destruct (ms !! m); [done|]. simpl. apply lookup_empty.
  - rewrite lookup_insert_ne by done. by rewrite decide_False by (by intros [? _]).
Qed.

Lemma handler_of_cons (e : string * string * Route) l m p :
  handler_of (e :: l) m p
  = if decide (e.1.1 = m ∧ e.1.2 = p) then Some e.2 else handler_of l m p.
Proof.
  unfold handler_of. simpl.
  destruct (decide (e.1.1 = m ∧ e.1.2 = p)); [done|].
  by destruct (list_find _ l) as [[? ?]|].
Qed.

Lemma handler_of_app_r (hs new : list (string * string * Route)) m p :
  (∀ e, e ∈ hs → ¬ (e.1.1 = m ∧ e.1.2 = p)) →
  handler_of (hs ++ new) m p = handler_of new m p.
Proof.
  induction hs as [|e hs IH]; intros Hno; [done|].
  simpl. rewrite handler_of_cons, decide_False.
  - apply IH. intros e' Hin. apply Hno. by right.
  - apply Hno. by left.
Qed.

Lemma handler_of_handlers_for (route : Route) (methods : list string) m :
  m ∈ methods → handler_of (handlers_for route methods) m (Path route) = Some route.
Proof.
  induction methods as [|m' methods IH]; intros Hin; [by apply elem_of_nil in Hin|].
  unfold handlers_for. rewrite fmap_cons, handler_of_cons. simpl.
  destruct (decide (m' = m ∧ Path route = Path route)) as [_|Hne]; [done|].
  apply IH. apply elem_of_cons in Hin as [->|?]; [|done]. by destruct Hne.
Qed.

Lemma patterns_of_app (hs new : list (string * string * Route)) m :
  patterns_of (hs ++ new) m = (patterns_of hs m ++ patterns_of new m)%list.
Proof. unfold patterns_of. by rewrite filter_app, fmap_app. Qed.

Lemma patterns_of_handlers_for (route : Route) (methods : list string) m :
  m ∈ methods → Path route ∈ patterns_of (handlers_for route methods) m.
Proof.
  intros Hin. unfold patterns_of, handlers_for.
  apply list_elem_of_fmap. exists (m, Path route, route). split; [done|].
  apply list_elem_of_filter. split; [done|].
  apply list_elem_of_fmap. by exists m.
Qed.

Section Registration.
Context `{Externals}.

(** Where the loop of [HandlePath] stands after the methods [done]. *)
Lemma HandlePath_range_spec (pm pm' : ReverseProxyMux) (route : Route)
    (methods : list string) (res : Result unit) :
  HandlePath_range pm route methods = (pm', res) →
  ∃ done,
    rt_handlers (pm_router pm')
      = (rt_handlers (pm_router pm) ++ handlers_for route done)%list
    ∧ same_settings pm pm' ∧ same_engine pm pm'
    ∧ (ModifyResponse route = None → pm_modifiers pm' = pm_modifiers pm)
    ∧ (∀ modifier, ModifyResponse route = Some modifier →
         ∀ m p, modifier_at (pm_modifiers pm') m p
                = if decide (m ∈ done ∧ p = Path route) then Some modifier
                  else modifier_at (pm_modifiers pm) m p)
    ∧ match res with
      | Returned _ => done = methods
      | Panicked _ =>
          ∃ m rest,
            methods = (done ++ m :: rest)%list
            ∧ router_accepts m
                (patterns_of (rt_handlers (pm_router pm) ++ handlers_for route done) m)
                (Path route) = false
      end.
Proof.
  revert pm. induction methods as [|method rest IH]; intros pm;
    cbn [HandlePath_range].
  - intros [= <- <-]. exists []. unfold same_settings, same_engine.
    rewrite app_nil_r.
    split; [done|]. split; [done|]. split; [done|]. split; [done|].
    split; [|done].
    intros modifier _ m p. rewrite decide_False; [done|].
    intros [Hin _]. by apply elem_of_nil in Hin.
  - destruct (router_accepts method
                (patterns_of (rt_handlers (pm_router pm)) method) (Path route))
      eqn:Hacc.
    + cbv zeta.
      match goal with
      | |- HandlePath_range ?x route rest = _ → _ => set (pm2 := x)
      end.
      assert (Hh2 : rt_handlers (pm_router pm2)
                    = (rt_handlers (pm_router pm) ++ [(method, Path route, route)])%list)
        by (subst pm2; by destruct (ModifyResponse route)).
      assert (Hset2 : same_settings pm pm2)
        by (subst pm2; by destruct (ModifyResponse route)).
      assert (Heng2 : same_engine pm pm2)
        by (subst pm2; by destruct (ModifyResponse route)).
      assert (Hnone2 : ModifyResponse route = None → pm_modifiers pm2 = pm_modifiers pm)
        by (subst pm2; by intros ->).
      assert (Hsome2 : ∀ modifier, ModifyResponse route = Some modifier →
                ∀ m p, modifier_at (pm_modifiers pm2) m p
                       = if decide (m = method ∧ p = Path route) then Some modifier
                         else modifier_at (pm_modifiers pm) m p).
      { intros modifier Hm m p. subst pm2. rewrite Hm. simpl.
        apply modifier_at_insert. }
      clearbody pm2. intros Hrest.
      apply IH in Hrest as (done & Hh & Hset & Heng & Hnone & Hsome & Hres).
      exists (method :: done).
      assert (Happ : (rt_handlers (pm_router pm)
                      ++ handlers_for route (method :: done))%list
                     = (rt_handlers (pm_router pm2) ++ handlers_for route done)%list).
      { rewrite Hh2. unfold handlers_for. rewrite fmap_cons. by rewrite <-app_assoc. }
      split; [by rewrite Happ|].
      split; [unfold same_settings in *; intuition congruence|].
      split; [unfold same_engine in *; intuition congruence|].
      split; [|split].
      * intros Hm. by rewrite Hnone, Hnone2.
      * intros modifier Hm m p. rewrite (Hsome modifier Hm m p).
        rewrite (Hsome2 modifier Hm m p).
        destruct (decide (m ∈ done ∧ p = Path route)) as [[Hin ->]|Hno].
        -- rewrite decide_True; [done|]. split; [by right|done].
        -- destruct (decide (m = method ∧ p = Path route)) as [[-> ->]|Hno'].
           ++ rewrite decide_True; [done|]. split; [by left|done].
           ++ rewrite decide_False; [done|].
              intros [[->|Hin]%elem_of_cons ->]; [by apply Hno'|by apply Hno].
      * destruct res as [[]|v].
        -- by rewrite Hres.
        -- destruct Hres as (m & rest' & -> & Hrefused).
           exists m, rest'. split; [done|]. by rewrite Happ.
    + intros [= <- <-]. exists []. unfold same_settings, same_engine.
      rewrite app_nil_r.
      split; [done|]. split; [done|]. split; [done|]. split; [done|]. split.
      * intros modifier _ m p. rewrite decide_False; [done|].
        intros [Hin _]. by apply elem_of_nil in Hin.
      * exists method, rest. split; [done|].
        unfold handlers_for. simpl. rewrite ?app_nil_r. exact Hacc.
Qed.

Lemma HandlePath_returned (pm pm' : ReverseProxyMux) (route : Route) :
  HandlePath pm route = (pm', Returned tt) →
  rt_handlers (pm_router pm')
    = (rt_handlers (pm_router pm) ++ handlers_for route (Method route))%list
  ∧ same_settings pm pm' ∧ same_engine pm pm'
  ∧ (ModifyResponse route = None → pm_modifiers pm' = pm_modifiers pm)
  ∧ (∀ modifier, ModifyResponse route = Some modifier →
       ∀ m p, modifier_at (pm_modifiers pm') m p
              = if decide (m ∈ Method route ∧ p = Path route) then Some modifier
                else modifier_at (pm_modifiers pm) m p).
Proof.
  intros Hhp. apply HandlePath_range_spec in Hhp
    as (done & Hh & Hset & Heng & Hnone & Hsome & ->).
  done.
Qed.

(** X12. When [HandlePath] returns, the router has one more handler for each
    method of the route, in the order of [route.Method] and after the
    handlers it had; a route with a modifier has it filed under each of its
    methods at the route's path and under no other method or path, a route
    without one leaves the modifier map as it is; the remote, the load, the
    hooks and the exported fields of the dispatcher are untouched. *)
Theorem HandlePath_registers (pm pm' : ReverseProxyMux) (route : Route) :
  HandlePath pm route = (pm', Returned tt) →
  rt_handlers (pm_router pm')
    = (rt_handlers (pm_router pm) ++ handlers_for route (Method route))%list
  ∧ same_settings pm pm' ∧ same_engine pm pm'
  ∧ (ModifyResponse route = None → pm_modifiers pm' = pm_modifiers pm)
  ∧ (∀ modifier, ModifyResponse route = Some modifier →
       ∀ m p, modifier_at (pm_modifiers pm') m p
              = if decide (m ∈ Method route ∧ p = Path route) then Some modifier
                else modifier_at (pm_modifiers pm) m p).
Proof.
  intros Hhp.
  destruct (HandlePath_returned _ _ _ Hhp) as (Hh & Hset & Heng & Hnone & Hsome).
  split; [exact Hh|]. split; [exact Hset|]. split; [exact Heng|].
  split; [exact Hnone|exact Hsome].
Qed.

(** X13. Registration and look-up agree at the router: after [HandlePath]
    has returned for a route whose (method, path) pairs were not registered
    before, the route's path is among the patterns of each of its methods,
    the handler found for such a method and the route's path is this
    route's, and a request of that method for which the router's tree
    selects the route's path is given to this route. *)
Theorem HandlePath_then_lookup (pm pm' : ReverseProxyMux) (route : Route)
    (method : string) (r : Request) :
  HandlePath pm route = (pm', Returned tt) →
  method ∈ Method route →
  (∀ e, e ∈ rt_handlers (pm_router pm) →
        ¬ (e.1.1 = method ∧ e.1.2 = Path route)) →
  Path route ∈ patterns_of (rt_handlers (pm_router pm')) method
  ∧ handler_of (rt_handlers (pm_router pm')) method (Path route) = Some route
  ∧ (req_Method r = method →
     router_getValue (patterns_of (rt_handlers (pm_router pm')) method)
                     (url_Path (req_URL r)) = Some (Path route) →
     router_lookup (pm_router pm') r = Some route).
Proof.
  intros Hhp Hin Hnew.
  destruct (HandlePath_returned _ _ _ Hhp) as (Hh & _).
  assert (Hfound : handler_of (rt_handlers (pm_router pm')) method (Path route)
                   = Some route).
  { rewrite Hh, handler_of_app_r by done. by apply handler_of_handlers_for. }
  split; [|split; [done|]].
  - rewrite Hh, patterns_of_app. apply elem_of_app. right.
    by apply patterns_of_handlers_for.
  - intros Hm Hsel. unfold router_lookup. rewrite Hm, Hsel. simpl. done.
Qed.

(** X14. When the router refuses one of the methods, [HandlePath] panics in
    the middle of its loop: the methods before the refused one stay
    registered (handlers, and modifier if the route has one), the refused
    one and those after it are not, and nothing else has changed. *)
Theorem HandlePath_refused (pm pm' : ReverseProxyMux) (route : Route) (v : string) :
  HandlePath pm route = (pm', Panicked v) →
  ∃ done m rest,
    Method route = (done ++ m :: rest)%list
    ∧ router_accepts m
        (patterns_of (rt_handlers (pm_router pm) ++ handlers_for route done) m)
        (Path route) = false
    ∧ rt_handlers (pm_router pm')
      = (rt_handlers (pm_router pm) ++ handlers_for route done)%list
    ∧ same_settings pm pm' ∧ same_engine pm pm'
    ∧ (∀ modifier, ModifyResponse route = Some modifier →
         ∀ m' p, modifier_at (pm_modifiers pm') m' p
                 = if decide (m' ∈ done ∧ p = Path route) then Some modifier
                   else modifier_at (pm_modifiers pm) m' p).
Proof.
  intros Hhp. apply HandlePath_range_spec in Hhp
    as (done & Hh & Hset & Heng & Hnone & Hsome & m & rest & Hm & Hrefused).
  exists done, m, rest. done.
Qed.

End Registration.

Lemma HandlePath_registers_witness :
  let pm' := (@HandlePath reference.externals examples.pm0 examples.route_plain).1 in
  rt_handlers (pm_router pm') = [("GET", "/posts", examples.route_plain)]
  ∧ is_Some (modifier_at (pm_modifiers pm') "GET" "/posts")
  ∧ modifier_at (pm_modifiers pm') "POST" "/posts" = None.
Proof.
  intros pm'.
  destruct (@HandlePath_registers reference.externals examples.pm0 pm'
              examples.route_plain eq_refl) as (Hh & _ & _ & _ & Hsome).
  split; [exact Hh|].
  pose proof (Hsome _ eq_refl) as Hat.
  split.
  - rewrite (Hat "GET" "/posts"). vm_compute. eauto.
  - rewrite (Hat "POST" "/posts"). reflexivity.
Defined.

Lemma HandlePath_then_lookup_witness :
  let pm' := (@HandlePath reference.externals examples.pm0 examples.route_plain).1 in
  @router_lookup reference.externals (pm_router pm') (examples.get "/posts")
  = Some examples.route_plain.
Proof.
  intros pm'.
  destruct (@HandlePath_then_lookup reference.externals examples.pm0 pm'
              examples.route_plain "GET" (examples.get "/posts") eq_refl)
    as (_ & _ & Hlookup).
  - by left.
  - intros e Hin. by apply elem_of_nil in Hin.
  - apply Hlookup; reflexivity.
Defined.

Lemma HandlePath_refused_witness :
  let route := NewRoute "GET|POST|GET" "/posts" in
  let out := @HandlePath reference.externals examples.pm0 route in
  out.2 = Panicked "httprouter: the path cannot be registered"
  ∧ ∃ done m rest,
      Method route = (done ++ m :: rest)%list
      ∧ rt_handlers (pm_router out.1) = handlers_for route done.
Proof.
  intros route out. split; [reflexivity|].
  destruct (@HandlePath_refused reference.externals examples.pm0 out.1 route
              "httprouter: the path cannot be registered" eq_refl)
    as (done & m & rest & Hm & _ & Hh & _).
  exists done, m, rest. split; [exact Hm|exact Hh].
Defined.

(** ** The dispatcher: the registration helpers and the constructor *)

Section Helpers.
Context `{Externals} `{SetupExternals}.

Lemma same_settings_trans (pm1 pm2 pm3 : ReverseProxyMux) :
  same_settings pm1 pm2 → same_settings pm2 pm3 → same_settings pm1 pm3.
Proof. unfold same_settings. intuition congruence. Qed.

Lemma same_engine_trans (pm1 pm2 pm3 : ReverseProxyMux) :
  same_engine pm1 pm2 → same_engine pm2 pm3 → same_engine pm1 pm3.
Proof. unfold same_engine. intuition congruence. Qed.

Lemma PassPaths_spec (pm pm' : ReverseProxyMux) (methods : string) (paths : list string) :
  PassPaths pm methods paths = (pm', Returned tt) →
  rt_handlers (pm_router pm')
    = (rt_handlers (pm_router pm)
       ++ flat_map (λ path, handlers_for (NewRoute methods path)
                              (methodStringToSlice methods)) paths)%list
  ∧ pm_modifiers pm' = pm_modifiers pm
  ∧ same_settings pm pm' ∧ same_engine pm pm'.
Proof.
  revert pm. induction paths as [|path rest IH]; intros pm; simpl.
  - intros [= <-]. rewrite app_nil_r. by unfold same_settings, same_engine.
  - unfold PassPath.
    destruct (HandlePath pm (NewRoute methods path)) as [pm1 [[]|v]] eqn:Hhp;
      [|done].
    destruct (HandlePath_returned _ _ _ Hhp) as (Hh1 & Hs1 & He1 & Hn1 & _).
    intros Hrest. destruct (IH pm1 Hrest) as (Hh & Hm & Hs & He).
    split; [|split; [|split]].
    + rewrite Hh, Hh1. simpl. by rewrite <-app_assoc.
    + rewrite Hm. by apply Hn1.
    + by eapply same_settings_trans.
    + by eapply same_engine_trans.
Qed.

Lemma PassAnyPathUnder_PassPaths (pm : ReverseProxyMux) (methods : string)
    (paths : list string) :
  PassAnyPathUnder pm methods paths
  = PassPaths pm methods ((λ path, filepath_Join path "/*path") <$> paths).
Proof.
  revert pm. induction paths as [|path rest IH]; intros pm; [done|].
  simpl. destruct (PassPath pm methods (filepath_Join path "/*path"))
    as [pm1 [[]|v]]; [apply IH|done].
Qed.

(** X15. The registration helpers register plain routes. When [PassPaths]
    returns, the router has, after the handlers it had, one handler for each
    path in the order given and, within a path, for each method of the
    expanded spec, each for the route [NewRoute(methods, path)]: no rewrite
    target, no headers, no modifier; the modifier map and everything else
    are as before. [PassAnyPathUnder] is [PassPaths] on the paths joined
    with the wildcard segment; [RewritePath] registers the one route that
    carries the target. *)
Theorem helpers_register_plain_routes (pm pm' : ReverseProxyMux)
    (methods : string) (paths : list string) :
  PassPaths pm methods paths = (pm', Returned tt) →
  (rt_handlers (pm_router pm')
     = (rt_handlers (pm_router pm)
        ++ flat_map (λ path, handlers_for (NewRoute methods path)
                               (methodStringToSlice methods)) paths)%list
   ∧ pm_modifiers pm' = pm_modifiers pm
   ∧ same_settings pm pm' ∧ same_engine pm pm')
  ∧ (∀ pm0 under,
       PassAnyPathUnder pm0 methods under
       = PassPaths pm0 methods ((λ path, filepath_Join path "/*path") <$> under))
  ∧ (∀ pm0 pm1 source target,
       RewritePath_ pm0 methods source target = (pm1, Returned tt) →
       rt_handlers (pm_router pm1)
         = (rt_handlers (pm_router pm0)
            ++ handlers_for (mkRoute (methodStringToSlice methods) source target ∅ None)
                 (methodStringToSlice methods))%list
       ∧ pm_modifiers pm1 = pm_modifiers pm0).
Proof.
  intros Hpp. split; [by apply PassPaths_spec|]. split.
  - intros pm0 under. apply PassAnyPathUnder_PassPaths.
  - intros pm0 pm1 source target Hrw. unfold RewritePath_ in Hrw. simpl in Hrw.
    destruct (HandlePath_returned _ _ _ Hrw) as (Hh & _ & _ & Hn & _).
    split; [exact Hh|]. by apply Hn.
Qed.

(** X16. A dispatcher fresh from [New]. [New] fails exactly when
    [url.Parse] does, with its error. Otherwise the dispatcher has the
    parsed remote, no route, no modifier and load 0, and [IsAvailable] is
    already the answer of the default probe for the remote; every request
    served before any registration takes the router's miss path with no
    [NotFound] or [MethodNotAllowed] handler set, and the load is 0 again
    afterwards. *)
Theorem New_dispatcher (remote : string) (t : World) :
  (∀ err, url_Parse remote = inl err ↔ New remote t = inl err)
  ∧ (∀ pm, New remote t = inr pm →
       url_Parse remote = inr (pm_remote pm)
       ∧ GetLoad pm = 0
       ∧ rt_handlers (pm_router pm) = []
       ∧ pm_modifiers pm = ∅
       ∧ IsAvailable pm = health.defaultHealthCheckFunc (pm_remote pm) t
       ∧ ∀ w r,
           router_lookup (pm_router pm) r = None
           ∧ (ServeHTTP pm w r).2 = router_miss [] None None w r
           ∧ GetLoad (ServeHTTP pm w r).1 = 0).
Proof.
  unfold New. split.
  - intros err. destruct (url_Parse remote) as [e|u]; split; congruence.
  - intros pm. destruct (url_Parse remote) as [e|u]; [done|].
    intros [= <-]. simpl. repeat split; try done.
    + unfold router_lookup. simpl.
      by destruct (router_getValue _ _).
    + unfold ServeHTTP, ServeHTTP_body, router_ServeHTTP, router_lookup. simpl.
      assert (Hnone : router_getValue (patterns_of [] (req_Method r))
                        (url_Path (req_URL r))
                        ≫= handler_of [] (req_Method r) = None)
        by (by destruct (router_getValue _ _)).
      rewrite Hnone.
      by destruct (router_miss [] None None w r) as [w' [[]|v]].
Qed.

End Helpers.

Lemma helpers_register_plain_routes_witness :
  let out := @PassPaths reference.externals examples.pm0 "HEAD|GET"
               ["/api/version"; "/api/posts"] in
  out.2 = Returned tt
  ∧ pm_modifiers out.1 = pm_modifiers examples.pm0
  ∧ length (rt_handlers (pm_router out.1)) = 4%nat.
Proof.
  intros out.
  assert (Hout : out = (out.1, Returned tt)) by (vm_compute; reflexivity).
  destruct (@helpers_register_plain_routes reference.externals
              {| url_Parse := λ _, inl "no parser"; filepath_Join := String.append |}
              examples.pm0 out.1 "HEAD|GET" ["/api/version"; "/api/posts"] Hout)
    as ((Hh & Hm & _) & _).
  split; [by rewrite Hout|]. split; [exact Hm|].
  rewrite Hh. reflexivity.
Defined.

(** ** The dispatcher: serving *)

Section Serving.
Context `{Externals}.

Lemma ServeHTTP_state (pm : ReverseProxyMux) w r :
  (ServeHTTP pm w r).1
  = ServeHTTP_exit (ServeHTTP_configure (ServeHTTP_enter pm)).
Proof. done. Qed.

(** X17. Serving never registers or removes anything. Whatever the request
    and however it ends (answered, error, panic), [ServeHTTP] leaves the
    handlers of the router, the modifier map, the remote, the health monitor
    and the exported fields of the dispatcher as they were; what it does
    change is the router's [NotFound] and [MethodNotAllowed], which are the
    dispatcher's current handlers afterwards. *)
Theorem ServeHTTP_read_only (pm : ReverseProxyMux) (w : ResponseWriter) (r : Request) :
  let pm' := (ServeHTTP pm w r).1 in
  rt_handlers (pm_router pm') = rt_handlers (pm_router pm)
  ∧ pm_modifiers pm' = pm_modifiers pm
  ∧ same_settings pm pm'
  ∧ rt_NotFound (pm_router pm') = pm_NotFoundHandler pm
  ∧ rt_MethodNotAllowed (pm_router pm') = pm_MethodNotAllowedHandler pm
  ∧ (∀ r2, router_lookup (pm_router pm') r2 = router_lookup (pm_router pm) r2).
Proof.
  intros pm'. subst pm'. rewrite ServeHTTP_state.
  unfold ServeHTTP_exit, ServeHTTP_configure, ServeHTTP_enter, same_settings,
    router_lookup.
  destruct (pm_ErrorHandler pm) eqn:E; simpl; rewrite ?E; done.
Qed.

(** X18. A failure to build the rewrite rule without an error handler. The
    handler of a route with a rewrite target calls [pm.ErrorHandler] without
    testing it: when [rewrite.NewRule] fails and no error handler is
    configured, [ServeHTTP] panics with the nil dereference and nothing is
    written to the client; this is so whether or not a panic handler is
    left in the router, since that one calls the nil [pm.ErrorHandler]
    too. *)
Theorem rewrite_failure_without_handler (pm : ReverseProxyMux) (w : ResponseWriter)
    (r : Request) (route : Route) (err : error) :
  router_lookup (pm_router pm) r = Some route →
  RewritePath route ≠ "" →
  rewrite_NewRule (Path route) (RewritePath route) = inl err →
  pm_ErrorHandler pm = None →
  (ServeHTTP pm w r).2 = (w, Panicked nil_deref).
Proof.
  intros Hroute Hrw Hrule Hnone.
  rewrite ServeHTTP_outcome.
  set (pm' := ServeHTTP_configure (ServeHTTP_enter pm)).
  pose proof (router_lookup_configure pm r) as Hlookup. fold pm' in Hlookup.
  destruct (ServeHTTP_configure_frame pm) as (HEh & _). fold pm' in HEh.
  unfold router_ServeHTTP. rewrite Hlookup, Hroute.
  unfold HandlePath_handler, HandlePath_prepare, HandlePath_rewrite.
  destruct (String.eqb_spec (RewritePath route) "") as [E|_]; [done|].
  rewrite Hrule, HEh, Hnone. simpl.
  destruct (rt_PanicHandler (pm_router pm')); [|done].
  unfold ServeHTTP_PanicHandler. by rewrite HEh, Hnone.
Qed.

(** X19. The answered request. For a request that the router gives to a
    route, whose rewrite rule (if any) is built and whose transport returns
    a response: when the modifier chain returns without an error, what is
    relayed to the client is the response the chain returned; and when the
    dispatcher has no global modifier and no modifier is filed under the
    method and path of the request that went out, that is the transport's
    response untouched. *)
Theorem matched_request_is_relayed (pm : ReverseProxyMux) (w w1 : ResponseWriter)
    (r r' : Request) (route : Route) (status : Z) (header : Header) (res' : Response) :
  router_lookup (pm_router pm) r = Some route →
  let pm' := ServeHTTP_configure (ServeHTTP_enter pm) in
  let outreq := proxy_outgoing (pm_remote pm) r' in
  HandlePath_prepare pm' route r = (r', None) →
  proxy_transport (pm_proxy pm') outreq = Returned (inl (status, header)) →
  ServeHTTP_ModifyResponse pm (mkResponse status header outreq)
    = Returned (res', None) →
  proxy_relay res' w = (w1, Returned tt) →
  (ServeHTTP pm w r).2 = (w1, Returned tt)
  ∧ (pm_ModifyResponse pm = None →
     modifier_at (pm_modifiers pm) (req_Method outreq) (url_Path (req_URL outreq))
       = None →
     res' = mkResponse status header outreq).
Proof.
  intros Hroute pm' outreq Hprep Ht Hchain Hrelay.
  pose proof (router_lookup_configure pm r) as Hlookup. fold pm' in Hlookup.
  destruct (ServeHTTP_configure_frame pm) as (_ & _ & Hrem & Hms & Hg & Hmod).
  fold pm' in Hrem, Hms, Hg, Hmod.
  assert (Hchain' : ServeHTTP_ModifyResponse pm' = ServeHTTP_ModifyResponse pm)
    by (unfold ServeHTTP_ModifyResponse; by rewrite Hms, Hg).
  split.
  - rewrite ServeHTTP_outcome. fold pm'.
    unfold router_ServeHTTP. rewrite Hlookup, Hroute.
    unfold HandlePath_handler. rewrite Hprep.
    unfold proxy_ServeHTTP. rewrite Hrem. fold outreq.
    by rewrite Ht, Hmod, Hchain', Hchain, Hrelay.
  - intros Hnoglobal Hnoroute.
    unfold ServeHTTP_ModifyResponse in Hchain. rewrite Hnoglobal in Hchain.
    cbv zeta beta in Hchain. unfold modifier_at in Hnoroute. simpl in Hchain.
    match type of Hchain with
    | match ?x with _ => _ end = _ =>
        replace x with (@None ResponseModifier) in Hchain
          by (symmetry; exact Hnoroute)
    end.
    by injection Hchain as <-.
Qed.

(** X20. The hooks that [ServeHTTP] installs stay installed. [ServeHTTP]
    copies [pm.ErrorHandler] and [pm.Transport] into the forwarding engine
    only when they are not nil, and installs the router's panic handler only
    then. So after a request was served with an error handler (a transport)
    configured, setting the field back to nil does not bring the defaults
    back: a later transport failure is still given to the old error handler,
    the old transport is still the one used, and a later panic of a route's
    handler is recovered by the panic handler that is still installed, which
    calls the nil [pm.ErrorHandler]: the request ends in a panic with the
    nil dereference instead of the handler's own panic value. *)
Theorem installed_hooks_stick (pm : ReverseProxyMux) (w w2 : ResponseWriter)
    (r r2 : Request) (route : Route) (handler : HttpErrorHandler) :
  pm_ErrorHandler pm = Some handler →
  router_lookup (pm_router pm) r2 = Some route →
  let pm2 := assign_ErrorHandler (ServeHTTP pm w r).1 None in
  let pm3 := ServeHTTP_configure (ServeHTTP_enter pm2) in
  pm_ErrorHandler pm2 = None
  ∧ (∀ r' err w1,
       HandlePath_prepare pm3 route r2 = (r', None) →
       proxy_transport (pm_proxy pm3) (proxy_outgoing (pm_remote pm3) r')
         = Returned (inr err) →
       handler w2 (proxy_outgoing (pm_remote pm3) r') err = (w1, Returned tt) →
       (ServeHTTP pm2 w2 r2).2 = (w1, Returned tt))
  ∧ (∀ w0 r0 val,
       HandlePath_handler pm3 route w2 r2 = (w0, r0, Panicked val) →
       (ServeHTTP pm2 w2 r2).2 = (w0, Panicked nil_deref))
  ∧ (∀ tr, pm_Transport pm = Some tr →
       proxy_transport
         (pm_proxy (ServeHTTP_configure
                      (ServeHTTP_enter (assign_Transport (ServeHTTP pm w r).1 None))))
       = tr).
Proof.
  intros Hh Hroute pm2 pm3.
  assert (Hrp2 : rp_ErrorHandler (pm_proxy pm2) = Some handler
                 ∧ rt_PanicHandler (pm_router pm2) = true
                 ∧ rt_handlers (pm_router pm2) = rt_handlers (pm_router pm)).
  { subst pm2. rewrite ServeHTTP_state.
    unfold ServeHTTP_exit, ServeHTTP_configure, ServeHTTP_enter. simpl.
    by rewrite Hh. }
  destruct Hrp2 as (Hrp2 & Hrt2 & Hhs2).
  assert (Hnone2 : pm_ErrorHandler pm2 = None) by done.
  destruct (ServeHTTP_configure_no_handler pm2 Hnone2) as [Hrp3 Hrt3].
  fold pm3 in Hrp3, Hrt3. rewrite Hrp2 in Hrp3. rewrite Hrt2 in Hrt3.
  destruct (ServeHTTP_configure_frame pm2) as (HEh3 & _). fold pm3 in HEh3.
  assert (Hlookup : router_lookup (pm_router pm3) r2 = Some route).
  { subst pm3. rewrite router_lookup_configure. unfold router_lookup.
    rewrite Hhs2. exact Hroute. }
  assert (Hout : (ServeHTTP pm2 w2 r2).2
                 = router_recv pm3 (HandlePath_handler pm3 route w2 r2)).
  { rewrite ServeHTTP_outcome. fold pm3. unfold router_ServeHTTP.
    by rewrite Hlookup. }
  split; [done|]. split; [|split].
  - intros r' err w1 Hprep Ht Hcall. rewrite Hout.
    unfold HandlePath_handler. rewrite Hprep.
    assert (Hget : proxy_getErrorHandler (pm_proxy pm3) = handler)
      by (unfold proxy_getErrorHandler; by rewrite Hrp3).
    rewrite (proxy_ServeHTTP_transport_error pm3 w2 r' err Ht), Hget.
    by rewrite Hcall.
  - intros w0 r0 val Hpanic. rewrite Hout, Hpanic. unfold router_recv.
    rewrite Hrt3. unfold ServeHTTP_PanicHandler. by rewrite HEh3, Hnone2.
  - intros tr Htr. rewrite ServeHTTP_state.
    unfold proxy_transport, ServeHTTP_exit, ServeHTTP_configure, ServeHTTP_enter,
      assign_Transport.
    simpl. repeat (first [rewrite Hh | rewrite Htr]; simpl). done.
Qed.

End Serving.

Lemma rewrite_failure_without_handler_witness :
  let pm := (@HandlePath reference.externals examples.pm0 examples.route_bad_rule).1 in
  (@ServeHTTP reference.externals pm examples.w0 (examples.get "/a(b")).2
  = (examples.w0, Panicked nil_deref).
Proof.
  intros pm.
  apply (@rewrite_failure_without_handler reference.externals pm examples.w0
           (examples.get "/a(b") examples.route_bad_rule
           "error parsing regexp: missing closing )").
  - reflexivity.
  - discriminate.
  - reflexivity.
  - reflexivity.
Defined.

Lemma matched_request_is_relayed_witness :
  let pm := (@HandlePath reference.externals examples.pm0 (NewRoute "GET" "/posts")).1 in
  (@ServeHTTP reference.externals pm examples.w0 (examples.get "/posts")).2
  = (mkResponseWriter ∅ (Some 200) [], Returned tt).
Proof.
  intros pm.
  destruct (@matched_request_is_relayed reference.externals pm examples.w0
              (mkResponseWriter ∅ (Some 200) [])
              (examples.get "/posts")
              (@HandlePath_prepare reference.externals
                 (ServeHTTP_configure (ServeHTTP_enter pm))
                 (NewRoute "GET" "/posts") (examples.get "/posts")).1
              (NewRoute "GET" "/posts") 200 ∅
              (mkResponse 200 ∅
                 (reference.outgoing examples.remote
                    (@HandlePath_prepare reference.externals
                       (ServeHTTP_configure (ServeHTTP_enter pm))
                       (NewRoute "GET" "/posts") (examples.get "/posts")).1)))
    as [Hout _];
    [reflexivity|reflexivity|reflexivity|reflexivity|reflexivity|exact Hout].
Defined.

Lemma installed_hooks_stick_witness :
  let pm := (@HandlePath reference.externals
               (examples.with_hooks examples.pm0 None (Some examples.report))
               examples.route_boom).1 in
  let pm2 := assign_ErrorHandler
               (@ServeHTTP reference.externals pm examples.w0 (examples.get "/boom")).1
               None in
  (@ServeHTTP reference.externals pm2 examples.w0 (examples.get "/boom")).2
  = (examples.w0, Panicked nil_deref).
Proof.
  intros pm pm2.
  destruct (@installed_hooks_stick reference.externals pm examples.w0 examples.w0
              (examples.get "/boom") (examples.get "/boom") examples.route_boom
              examples.report eq_refl eq_refl) as (_ & _ & Hpanic & _).
  set (out := @HandlePath_handler reference.externals
                (ServeHTTP_configure (ServeHTTP_enter pm2))
                examples.route_boom examples.w0 (examples.get "/boom")).
  assert (Hout : out = (examples.w0, out.1.2, Panicked "boom"))
    by (vm_compute; reflexivity).
  exact (Hpanic _ _ _ Hout).
Defined.

Section HealthOfDispatcher.
Context `{Externals} `{SetupExternals}.

(** X21. The health monitor of a dispatcher watches the dispatcher's
    remote. On a dispatcher fresh from [New], [SetHealthCheckFunc] returns,
    the new probe has been called once, with the parsed remote URL, and
    [IsAvailable] is its answer; routes, modifiers, load and hooks are not
    touched. *)
Theorem SetHealthCheckFunc_probes_remote (remote : string) (t : World)
    (pm : ReverseProxyMux) (chk : health.Probe) (per : Z) :
  New remote t = inr pm →
  ∃ pm', SetHealthCheckFunc pm chk per = health.Done pm'
         ∧ IsAvailable pm' = chk (pm_remote pm) (S t)
         ∧ health.origin (pm_health pm') = pm_remote pm
         ∧ pm_remote pm' = pm_remote pm
         ∧ pm_router pm' = pm_router pm
         ∧ pm_modifiers pm' = pm_modifiers pm
         ∧ pm_load pm' = pm_load pm
         ∧ pm_ErrorHandler pm' = pm_ErrorHandler pm.
Proof.
  unfold New. destruct (url_Parse remote) as [e|u]; [done|].
  intros [= <-]. eexists. split; [reflexivity|]. done.
Qed.

End HealthOfDispatcher.

Lemma SetHealthCheckFunc_probes_remote_witness :
  let S0 : SetupExternals :=
    {| url_Parse := λ s, if String.eqb s "http://my-backend:8000"
                         then inr examples.remote else inl "parse error";
       filepath_Join := String.append |} in
  ∃ pm pm',
    @New reference.externals S0 "http://my-backend:8000" O = inr pm
    ∧ SetHealthCheckFunc pm (λ _ _, false) 1000 = health.Done pm'
    ∧ IsAvailable pm' = false.
Proof.
  intros S0.
  destruct (@SetHealthCheckFunc_probes_remote reference.externals S0
              "http://my-backend:8000" O examples.pm0 (λ _ _, false) 1000 eq_refl)
    as (pm' & Hset & Hav & _).
  exists examples.pm0, pm'. split; [reflexivity|]. split; [exact Hset|exact Hav].
Defined.
